(** * The CPU LLM inference engine of MediaPipe's GenAI C API

    A shallow embedding of
    [mediapipe/tasks/cc/genai/inference/c/llm_inference_engine_cpu.cc]:
    the decode loop [next_token_function], the worker entry point
    [start_llm_function], the stop-token matcher, the lookahead buffer
    [last_10_char], the marshalling of chunks into [LlmResponseContext]
    and the entry points [PredictAsync], [PredictSync], [SizeInTokens]
    and [CloseResponseContext].

    Conventions.
    - C [int] and [size_t] values are integers of [Z]; every conversion the
      source performs is written out with [to_int] and [to_size_t].
    - [std::string] is [string]; a [char*] produced by [snprintf "%s"] is the
      string cut at its first NUL character ([c_str]).
    - The tokenizer, the normalizer and the model backend are external: they
      are fields of the [Engine] record, the backend with an explicit state.
    - [malloc] and [free] act on a heap of blocks, a [gmap] from addresses.
    - The worker thread started by [pthread_create] is run to completion: the
      state a caller sees after [pthread_join]. *)

From Stdlib Require Import ZArith Ascii Bool Lia.
From Stdlib Require String.
From stdpp Require Import gmap strings list.

Local Open Scope Z_scope.

(** ** Machine integers *)

Module Machine.

(** [size_t] is 64 bits wide, [int] 32 bits and signed. *)
Definition SIZE_MAX : Z := 2 ^ 64 - 1.
Definition INT_MAX : Z := 2 ^ 31 - 1.
Definition INT_MIN : Z := - 2 ^ 31.

(** Conversion of an integer value to [size_t]. *)
Definition to_size_t (z : Z) : Z := z mod 2 ^ 64.

(** Conversion of an integer value to [int] (two's complement). *)
Definition to_int (z : Z) : Z := (z + 2 ^ 31) mod 2 ^ 32 - 2 ^ 31.

Definition in_int (z : Z) : Prop := INT_MIN <= z <= INT_MAX.

End Machine.
Import Machine.

(** ** [std::string] *)

Module Str.

Definition NUL : ascii := Ascii.zero.

(** [std::string::npos]. *)
Definition npos : Z := SIZE_MAX.

(** [s.size()]. *)
Definition size (s : string) : Z := Z.of_nat (String.length s).

(** Lowest position, counted from [i], at which [str] starts in [s]. *)
Fixpoint find_from (s str : string) (i : nat) : option nat :=
  if String.prefix str s then Some i
  else match s with
       | EmptyString => None
       | String _ s' => find_from s' str (S i)
       end.

(** [s.find(str)]: the lowest position of an occurrence, or [npos]. *)
Definition find (s str : string) : Z :=
  match find_from s str 0 with
  | Some i => Z.of_nat i
  | None => npos
  end.

(** [s.substr(pos, n)] for [pos <= s.size()]: the length is the smaller of
    [n] and [s.size() - pos]. *)
Definition substr (s : string) (pos n : Z) : string :=
  String.substring (Z.to_nat pos) (Z.to_nat (Z.min n (size s - pos))) s.

(** [s.substr(pos)]: the count defaults to [npos], which no size reaches,
    so the result runs to the end of [s]. *)
Definition substr_from (s : string) (pos : Z) : string :=
  substr s pos (size s - pos).

(** What [snprintf(dst, s.size() + 1, "%s", s.c_str())] leaves in [dst]:
    the characters of [s] before its first NUL. *)
Fixpoint c_str (s : string) : string :=
  match s with
  | EmptyString => EmptyString
  | String c s' => if Ascii.eqb c NUL then EmptyString else String c (c_str s')
  end.

(** [str] occurs in [s] at position [i]. *)
Definition occurs_at (s str : string) (i : nat) : Prop :=
  String.substring i (String.length str) s = str.

Fixpoint has_nul (s : string) : bool :=
  match s with
  | EmptyString => false
  | String c s' => Ascii.eqb c NUL || has_nul s'
  end.

(** The concatenation of a list of strings. *)
Fixpoint concat (l : list string) : string :=
  match l with
  | [] => EmptyString
  | s :: l' => s +:+ concat l'
  end.

End Str.
Import Str.

(** ** The heap and the response context *)

Module Heap.

Definition addr := positive.

(** A block is either the characters of a C string or an array of
    [char*] slots; [None] is a null (or not yet written) pointer. *)
Inductive block :=
| CharBlock (text : string)
| PtrBlock (slots : list (option addr)).

(** [malloc] hands out an address that is not in use.  The heap is
    unbounded: [malloc] never returns [nullptr], so the two
    "Failed to allocate" branches of the source cannot be taken. *)
Definition malloc (h : gmap addr block) : addr := fresh (dom h).

(** [free(p)]: nothing for a null pointer, undefined ([None]) for an
    address that is not allocated. *)
Definition free (p : option addr) (h : gmap addr block)
  : option (gmap addr block) :=
  match p with
  | None => Some h
  | Some a => match h !! a with
              | Some _ => Some (delete a h)
              | None => None
              end
  end.

End Heap.
Import Heap.

Module Response.

(** [LlmResponseContext] of [llm_inference_engine.h]. *)
Record LlmResponseContext := {
  response_array : option addr;
  response_count : Z;
  done : bool
}.

(** The allocation sequence shared by the callback lambda of
    [PredictAsync] and by [PredictSync]:
    [result = malloc(sizeof(char* ) * 1)],
    [result[0] = malloc(sizeof(char* ) * (responses.size() + 1))],
    [snprintf(result[0], responses.size() + 1, "%s", responses.c_str())]. *)
Definition alloc_result (responses : string) (h : gmap addr block)
  : addr * gmap addr block :=
  let result := malloc h in
  let h := <[result := PtrBlock [None]]> h in
  let result0 := malloc h in
  let h := <[result0 := CharBlock EmptyString]> h in
  let h := <[result := PtrBlock [Some result0]]> h in
  let h := <[result0 := CharBlock (c_str responses)]> h in
  (result, h).

(** The text a slot points to. *)
Definition read_entry (h : gmap addr block) (slot : option addr)
  : option string :=
  match slot with
  | Some p => match h !! p with
              | Some (CharBlock text) => Some text
              | _ => None
              end
  | None => None
  end.

(** The slots of the entry array of a context. *)
Definition read_slots (ctx : LlmResponseContext) (h : gmap addr block)
  : option (list (option addr)) :=
  match response_array ctx with
  | Some a => match h !! a with
              | Some (PtrBlock slots) => Some slots
              | _ => None
              end
  | None => None
  end.

Fixpoint read_entries (h : gmap addr block) (slots : list (option addr))
  : option (list string) :=
  match slots with
  | [] => Some []
  | slot :: rest =>
      match read_entry h slot, read_entries h rest with
      | Some text, Some texts => Some (text :: texts)
      | _, _ => None
      end
  end.

(** The texts a receiver reads through [response_array[0 .. count - 1]]. *)
Definition read_response (ctx : LlmResponseContext) (h : gmap addr block)
  : option (list string) :=
  match read_slots ctx h with
  | Some slots =>
      read_entries h (take (Z.to_nat (response_count ctx)) slots)
  | None => None
  end.

(** The loop [for (size_t i = 0; i < response_count; i++)
    free(response_array[i])], with [todo] iterations left. *)
Fixpoint free_entries (todo : nat) (i : nat) (array : option addr)
    (h : gmap addr block) : option (gmap addr block) :=
  match todo with
  | O => Some h
  | S todo' =>
      match array with
      | Some a =>
          match h !! a with
          | Some (PtrBlock slots) =>
              match slots !! i with
              | Some p =>
                  match free p h with
                  | Some h' => free_entries todo' (S i) array h'
                  | None => None
                  end
              | None => None
              end
          | _ => None
          end
      | None => None
      end
  end.

(** [LlmInferenceEngine_CloseResponseContext]; [None] is undefined
    behaviour (a read outside the array, a double free). *)
Definition CloseResponseContext (ctx : LlmResponseContext)
    (h : gmap addr block) : option (LlmResponseContext * gmap addr block) :=
  match free_entries (Z.to_nat (to_size_t (response_count ctx))) 0
          (response_array ctx) h with
  | Some h1 =>
      match free (response_array ctx) h1 with
      | Some h2 =>
          Some ({| response_array := None;
                   response_count := 0;
                   done := done ctx |}, h2)
      | None => None
      end
  | None => None
  end.

(** The heap after [free] on each address of a list, in order. *)
Definition released (h : gmap addr block) (ps : list addr)
  : gmap addr block :=
  foldl (fun h p => delete p h) h ps.

(** A context owns its entries in [h]: the array is a block of exactly
    [response_count] slots, each pointing to a character block of its
    own. *)
Definition owns (ctx : LlmResponseContext) (h : gmap addr block)
    (a : addr) (entries : list addr) : Prop :=
  response_array ctx = Some a /\
  h !! a = Some (PtrBlock (Some <$> entries)) /\
  response_count ctx = Z.of_nat (length entries) /\
  response_count ctx <= SIZE_MAX /\
  NoDup entries /\
  (forall p, p ∈ entries -> exists text, h !! p = Some (CharBlock text)).

End Response.
Import Response.

(** ** External collaborators *)

(** [absl::Status]: ok, or an error with the text that [ToString] and
    [operator<<] print for it. *)
Inductive Status :=
| OkStatus
| ErrorStatus (text : string).

Definition ok (st : Status) : bool :=
  match st with
  | OkStatus => true
  | ErrorStatus _ => false
  end.

Definition ToString (st : Status) : string :=
  match st with
  | OkStatus => "OK"
  | ErrorStatus text => text
  end.

(** [sentencepiece::SentencePieceProcessor]: [Encode(input, &ids)] gives a
    status and the ids written to the vector. *)
Record Tokenizer := {
  Encode : string -> Status * list Z;
  IdToPiece : Z -> string
}.

(** [sentencepiece::normalizer::Normalizer]. *)
Record Normalizer := {
  Normalize : string -> string
}.

(** [xnn_utils::Llm], over the type [L] of its internal state:
    [GetNextToken(&ids)] gives a status and the ids put into the (empty)
    vector. *)
Record Llm (L : Type) := {
  InitInputTokens : list Z -> L -> Status * L;
  GetNextToken : L -> Status * list Z * L
}.
Arguments InitInputTokens {L}.
Arguments GetNextToken {L}.

(** The C callback handed to [PredictAsync]: the empty lambda of
    [PredictSync], or a function of the caller with its context pointer. *)
Inductive CCallback :=
| Discard
| Deliver (callback_context : Z).

(** What the worker does to the outside, in order. *)
Inductive Event :=
| CallInitInputTokens (prompt_ids : list Z)
| CallGetNextToken
| CallCallback (callback : CCallback) (response_context : LlmResponseContext)
    (texts : option (list string)).

(** The result of running a piece of the program: it returns, it aborts
    through [ABSL_LOG(FATAL)], its behaviour is undefined, or the fuel of
    the model ran out. *)
Inductive outcome (A : Type) :=
| Returns (a : A)
| Fatal (message : string)
| Undefined
| OutOfFuel.
Arguments Returns {A}.
Arguments Fatal {A}.
Arguments Undefined {A}.
Arguments OutOfFuel {A}.

(** Whether [next_token_function] calls itself again or returns. *)
Inductive control := Again | Stop.

Definition kCheckLastKChars : Z := 10.

(** ** Engine, session and the decode loop *)

Section Engine.

Context {L : Type}.

(** [LlmInferenceEngineCpu_Engine]. *)
Record Engine := {
  tokenizer : Tokenizer;
  normalizer : option Normalizer;
  llm : Llm L;
  start_token_id : Z;
  stop_tokens : list string;
  max_num_tokens : Z
}.

(** [LlmInferenceEngineCpu_Session]; the engine it points to is an
    argument of every function below, and [work_id] is left out (the
    worker is run to completion where it is created). *)
Record Session := {
  prompt : string;
  max_num_output_tokens : Z;
  response_count : Z;
  last_10_char : string;
  final_output : string;
  cpu_callback : CCallback;
  early_stop : bool
}.

(** Everything outside the session that the worker changes. *)
Record World := {
  llm_state : L;
  heap : gmap addr block;
  trace : list Event
}.

Definition set_response_count (v : Z) (s : Session) : Session :=
  {| prompt := prompt s;
     max_num_output_tokens := max_num_output_tokens s;
     response_count := v;
     last_10_char := last_10_char s;
     final_output := final_output s;
     cpu_callback := cpu_callback s;
     early_stop := early_stop s |}.

Definition set_max_num_output_tokens (v : Z) (s : Session) : Session :=
  {| prompt := prompt s;
     max_num_output_tokens := v;
     response_count := response_count s;
     last_10_char := last_10_char s;
     final_output := final_output s;
     cpu_callback := cpu_callback s;
     early_stop := early_stop s |}.

Definition set_last_10_char (v : string) (s : Session) : Session :=
  {| prompt := prompt s;
     max_num_output_tokens := max_num_output_tokens s;
     response_count := response_count s;
     last_10_char := v;
     final_output := final_output s;
     cpu_callback := cpu_callback s;
     early_stop := early_stop s |}.

Definition set_final_output (v : string) (s : Session) : Session :=
  {| prompt := prompt s;
     max_num_output_tokens := max_num_output_tokens s;
     response_count := response_count s;
     last_10_char := last_10_char s;
     final_output := v;
     cpu_callback := cpu_callback s;
     early_stop := early_stop s |}.

Definition set_early_stop (v : bool) (s : Session) : Session :=
  {| prompt := prompt s;
     max_num_output_tokens := max_num_output_tokens s;
     response_count := response_count s;
     last_10_char := last_10_char s;
     final_output := final_output s;
     cpu_callback := cpu_callback s;
     early_stop := v |}.

Definition set_cpu_callback (v : CCallback) (s : Session) : Session :=
  {| prompt := prompt s;
     max_num_output_tokens := max_num_output_tokens s;
     response_count := response_count s;
     last_10_char := last_10_char s;
     final_output := final_output s;
     cpu_callback := v;
     early_stop := early_stop s |}.

Definition log_event (ev : Event) (w : World) : World :=
  {| llm_state := llm_state w; heap := heap w; trace := trace w ++ [ev] |}.

(** The fields that only [PredictAsync], [start_llm_function] and the
    increment of [response_count] write. *)
Definition same_request (s s' : Session) : Prop :=
  prompt s' = prompt s /\
  max_num_output_tokens s' = max_num_output_tokens s /\
  response_count s' = response_count s /\
  cpu_callback s' = cpu_callback s.

(** The loop over [stop_tokens] in [next_token_function]: [stop_index] is
    an [int] that receives the [size_t] result of [find] and is compared
    with [npos] and passed to [substr] as a [size_t] again. *)
Fixpoint stop_token_loop (tokens : list string) (s : Session) : Session :=
  match tokens with
  | [] => s
  | stop_token :: rest =>
      let stop_index := to_int (find (last_10_char s) stop_token) in
      if negb (to_size_t stop_index =? npos) then
        let s := set_early_stop true s in
        set_last_10_char (substr (last_10_char s) 0 (to_size_t stop_index)) s
      else stop_token_loop rest s
  end.

(** The choice of [ready_char]: the whole buffer once [early_stop] is set,
    else all but the last [kCheckLastKChars] characters of a buffer longer
    than that, else nothing. *)
Definition take_ready_char (s : Session) : string * Session :=
  if early_stop s then (last_10_char s, s)
  else if size (last_10_char s) >? kCheckLastKChars then
    let ready_char :=
      substr (last_10_char s) 0
        (size (last_10_char s) - kCheckLastKChars) in
    let s :=
      set_last_10_char
        (substr_from (last_10_char s)
           (size (last_10_char s) - kCheckLastKChars)) s in
    (ready_char, s)
  else (EmptyString, s).

(** The lambda that [PredictAsync] stores in [cpu_callback]: it copies
    [responses] into a one-entry context whose [done] is the session's
    [early_stop] at this moment, and calls the C callback with it. *)
Definition call_cpu_callback (s : Session) (responses : string) (w : World)
  : World :=
  let '(result, h) := alloc_result responses (heap w) in
  let response_context :=
    {| response_array := Some result;
       Response.response_count := 1;
       done := early_stop s |} in
  {| llm_state := llm_state w;
     heap := h;
     trace := trace w ++
       [CallCallback (cpu_callback s) response_context
          (read_response response_context h)] |}.

(** The text of a generated token: [IdToPiece], then [Normalize] when the
    engine has a normalizer. *)
Definition piece (e : Engine) (id : Z) : string :=
  let token := IdToPiece (tokenizer e) id in
  match normalizer e with
  | Some n => Normalize n token
  | None => token
  end.

(** What one activation does to the session once the backend has
    answered: [early_stop] at the output ceiling, the token appended to
    [last_10_char], the stop tokens, the choice of [ready_char] and its
    append to [final_output].  Gives [ready_char] and the session. *)
Definition absorb_token (e : Engine) (token : string) (s : Session)
  : string * Session :=
  let s := if response_count s =? max_num_output_tokens s
           then set_early_stop true s else s in
  let s := set_last_10_char (last_10_char s +:+ token) s in
  let s := stop_token_loop (stop_tokens e) s in
  let '(ready_char, s) := take_ready_char s in
  let s := set_final_output (final_output s +:+ ready_char) s in
  (ready_char, s).

(** One activation of [next_token_function], up to its recursive call.
    [response_count++] on [INT_MAX] is undefined in C; it wraps here.
    The second test of [early_stop] ("for future multithreading
    support") reads what the first one read: there is one worker. *)
Definition next_token_body (e : Engine) (s : Session) (w : World)
  : outcome (control * Session * World) :=
  let count := response_count s in
  let s := set_response_count (to_int (count + 1)) s in
  if count <? max_num_output_tokens s then
    if early_stop s then Returns (Stop, s, w)
    else
      let '(status, token_ids_per_step, l) :=
        GetNextToken (llm e) (llm_state w) in
      let w := log_event CallGetNextToken
                 {| llm_state := l; heap := heap w; trace := trace w |} in
      if negb (ok status) then
        Fatal ("Failed to generate output: " +:+ ToString status)
      else if early_stop s then Returns (Stop, s, w)
      else
        match token_ids_per_step with
        | [] => Undefined
        | id :: _ =>
            let '(ready_char, s) := absorb_token e (piece e id) s in
            let w := call_cpu_callback s ready_char w in
            Returns (Again, s, w)
        end
  else Returns (Stop, s, w).

(** [next_token_function] with a bound on the depth of its recursion. *)
Fixpoint next_token_fuel (fuel : nat) (e : Engine) (s : Session) (w : World)
  : outcome (Session * World) :=
  match fuel with
  | O => OutOfFuel
  | S fuel' =>
      match next_token_body e s w with
      | Returns (Again, s', w') => next_token_fuel fuel' e s' w'
      | Returns (Stop, s', w') => Returns (s', w')
      | Fatal message => Fatal message
      | Undefined => Undefined
      | OutOfFuel => OutOfFuel
      end
  end.

(** [next_token_function]: every recursive call has a [response_count]
    one closer to [max_num_output_tokens], which bounds the depth. *)
Definition next_token_function (e : Engine) (s : Session) (w : World)
  : outcome (Session * World) :=
  next_token_fuel
    (S (Z.to_nat (max_num_output_tokens s - response_count s))) e s w.

(** [max_num_tokens - prompt_ids.size()], a [size_t], stored in the
    [int] field [max_num_output_tokens]. *)
Definition output_ceiling (e : Engine) (prompt_ids : list Z) : Z :=
  to_int (to_size_t (max_num_tokens e - Z.of_nat (length prompt_ids))).

(** [start_llm_function], the body of the worker thread. *)
Definition start_llm_function (e : Engine) (s : Session) (w : World)
  : outcome (Session * World) :=
  let '(status, ids) := Encode (tokenizer e) (prompt s) in
  if negb (ok status) then
    Fatal ("Failed to encode input: " +:+ ToString status)
  else
    let prompt_ids := start_token_id e :: ids in
    let '(status, l) := InitInputTokens (llm e) prompt_ids (llm_state w) in
    let w := log_event (CallInitInputTokens prompt_ids)
               {| llm_state := l; heap := heap w; trace := trace w |} in
    if negb (ok status) then
      Fatal ("Failed to process input tokens: " +:+ ToString status)
    else
      let s := set_max_num_output_tokens (output_ceiling e prompt_ids) s in
      next_token_function e s w.

(** The assignments of [LlmInferenceEngine_Session_PredictAsync] to the
    session before the worker is created: the callback lambda, [prompt],
    [final_output], [last_10_char] and [early_stop]. *)
Definition reset_request (callback : CCallback) (input : string)
    (s : Session) : Session :=
  {| prompt := input;
     max_num_output_tokens := max_num_output_tokens s;
     response_count := response_count s;
     last_10_char := EmptyString;
     final_output := EmptyString;
     cpu_callback := callback;
     early_stop := false |}.

(** [LlmInferenceEngine_Session_PredictAsync], together with the worker
    that [pthread_create] starts on [start_llm_function]. *)
Definition PredictAsync (e : Engine) (callback : CCallback) (input : string)
    (s : Session) (w : World) : outcome (Session * World) :=
  start_llm_function e (reset_request callback input s) w.

(** [LlmInferenceEngine_Session_PredictSync]. *)
Definition PredictSync (e : Engine) (input : string) (s : Session)
    (w : World) : outcome (LlmResponseContext * Session * World) :=
  match PredictAsync e Discard input s w with
  | Returns (s, w) =>
      let '(result, h) := alloc_result (final_output s) (heap w) in
      let response_context :=
        {| response_array := Some result;
           Response.response_count := 1;
           done := true |} in
      Returns (response_context, s,
               {| llm_state := llm_state w; heap := h; trace := trace w |})
  | Fatal message => Fatal message
  | Undefined => Undefined
  | OutOfFuel => OutOfFuel
  end.

(** [LlmInferenceEngine_Session_SizeInTokens]: the returned [int] and the
    string stored through [error_msg], if any. *)
Definition SizeInTokens (e : Engine) (input : string) : Z * option string :=
  let '(status, output_ids) := Encode (tokenizer e) input in
  if negb (ok status) then (-1, Some (c_str (ToString status)))
  else (to_int (Z.of_nat (length output_ids)), None).

(** [LlmInferenceEngine_CreateEngine] and
    [LlmInferenceEngine_CreateSession]: the returned code and the message
    stored through [error_msg]. *)
Definition CreateEngine : Z * string := (12, c_str "Not implemented").
Definition CreateSession : Z * string := (12, c_str "Not implemented").

End Engine.

Arguments Engine : clear implicits.
Arguments World : clear implicits.

(** ** Observations on a trace *)

Definition is_request (ev : Event) : bool :=
  match ev with
  | CallGetNextToken => true
  | _ => false
  end.

(** The number of [GetNextToken] requests made to the backend. *)
Definition requests (evs : list Event) : Z :=
  Z.of_nat (length (filter (fun ev => is_request ev = true) evs)).

(** The [done] flags of the contexts delivered to the callback, in order. *)
Fixpoint done_flags (evs : list Event) : list bool :=
  match evs with
  | [] => []
  | CallCallback _ ctx _ :: evs' => done ctx :: done_flags evs'
  | _ :: evs' => done_flags evs'
  end.

(** The chunks the callback reads from the delivered contexts, in order. *)
Fixpoint chunks (evs : list Event) : list string :=
  match evs with
  | [] => []
  | CallCallback _ _ (Some texts) :: evs' => texts ++ chunks evs'
  | _ :: evs' => chunks evs'
  end.

(** The number of callback invocations. *)
Fixpoint deliveries (evs : list Event) : nat :=
  match evs with
  | [] => O
  | CallCallback _ _ _ :: evs' => S (deliveries evs')
  | _ :: evs' => deliveries evs'
  end.

(** ** The stop-sequence matcher as the specification words it *)

Module Spec.

(** The lowest starting index of a match among all configured
    sequences. *)
Fixpoint earliest_match (buffer : string) (sequences : list string)
  : option nat :=
  match sequences with
  | [] => None
  | sequence :: rest =>
      match find_from buffer sequence 0, earliest_match buffer rest with
      | Some i, Some j => Some (Nat.min i j)
      | Some i, None => Some i
      | None, r => r
      end
  end.

(** The buffer cut at the starting index of the earliest match. *)
Definition truncate_at_earliest (buffer : string) (sequences : list string)
  : string :=
  match earliest_match buffer sequences with
  | Some i => String.substring 0 i buffer
  | None => buffer
  end.

End Spec.

(** ** A scripted backend for concrete runs *)

Module Script.

(** The backend state is the list of token ids it has yet to produce;
    an exhausted backend fails. *)
Definition scripted_llm : Llm (list Z) :=
  {| InitInputTokens := fun _ st => (OkStatus, st);
     GetNextToken := fun st =>
       match st with
       | id :: st' => (OkStatus, [id], st')
       | [] => (ErrorStatus "no more tokens", [], [])
       end |}.

(** One token id per character; a prompt with a NUL character is
    rejected. *)
Fixpoint char_ids (s : string) : list Z :=
  match s with
  | EmptyString => []
  | String c s' => Z.of_nat (nat_of_ascii c) :: char_ids s'
  end.

Definition scripted_tokenizer (pieces : list string) : Tokenizer :=
  {| Encode := fun input =>
       if has_nul input then (ErrorStatus "invalid input", [])
       else (OkStatus, char_ids input);
     IdToPiece := fun id => nth (Z.to_nat id) pieces EmptyString |}.

Definition engine (pieces stops : list string) (budget : Z)
  : Engine (list Z) :=
  {| tokenizer := scripted_tokenizer pieces;
     normalizer := None;
     llm := scripted_llm;
     start_token_id := 1;
     stop_tokens := stops;
     max_num_tokens := budget |}.

Definition fresh_session : Session :=
  {| prompt := EmptyString;
     max_num_output_tokens := 0;
     response_count := 0;
     last_10_char := EmptyString;
     final_output := EmptyString;
     cpu_callback := Discard;
     early_stop := false |}.

Definition world (script : list Z) : World (list Z) :=
  {| llm_state := script; heap := ∅; trace := [] |}.

(** The session and the world a run leaves, or the given ones when it
    does not return. *)
Definition final {A : Type} (r : outcome A) (default : A) : A :=
  match r with
  | Returns a => a
  | _ => default
  end.

(** A stop sequence that straddles two tokens, followed by a token that
    must not be asked for. *)
Definition hi_engine : Engine (list Z) :=
  engine ["Hi"; "</"; "s>"; "extra"] ["</s>"] 20.

(** Three tokens, no stop sequence, and room for exactly three tokens
    after a prompt of three characters and the start token. *)
Definition greeting_engine : Engine (list Z) :=
  engine ["Hello, "; "wonderful "; "world"] [] 7.

(** A budget of three tokens. *)
Definition small_engine : Engine (list Z) := engine ["a"] [] 3.

(** The session and the world that asynchronous predict leaves on
    [greeting_engine]. *)
Definition greeting_async : Session * World (list Z) :=
  final (PredictAsync greeting_engine (Deliver 0) "abc" fresh_session
           (world [0; 1; 2]))
    (fresh_session, world []).

(** The session in the middle of a run of [greeting_engine]: one token
    decoded, seven characters in the buffer. *)
Definition greeting_session : Session :=
  {| prompt := "abc";
     max_num_output_tokens := 3;
     response_count := 1;
     last_10_char := "Hello, ";
     final_output := EmptyString;
     cpu_callback := Deliver 0;
     early_stop := false |}.

(** What the next activation makes of [greeting_session]. *)
Definition greeting_step : control * Session * World (list Z) :=
  final (next_token_body greeting_engine greeting_session (world [1; 2]))
    (Stop, greeting_session, world []).

(** The context, the session and the world that synchronous predict
    returns on [greeting_engine]. *)
Definition greeting_sync : LlmResponseContext * Session * World (list Z) :=
  final (PredictSync greeting_engine "abc" fresh_session (world [0; 1; 2]))
    ({| response_array := None; Response.response_count := 0;
        done := false |}, fresh_session, world []).

(** Two requests in a row on one session: the prompt "abc", then the
    prompt "a" on the session and the world the first one left. *)
Definition reuse_first : Session * World (list Z) :=
  final (PredictAsync greeting_engine (Deliver 0) "abc" fresh_session
           (world [0; 1; 2; 0; 1; 2]))
    (fresh_session, world []).

Definition reuse_second : Session * World (list Z) :=
  final (PredictAsync greeting_engine (Deliver 1) "a"
           reuse_first.1 reuse_first.2)
    (fresh_session, world []).

(** A context for the text "Hi" in an otherwise empty heap. *)
Definition hi_heap : gmap addr block := (alloc_result "Hi" ∅).2.
Definition hi_context : LlmResponseContext :=
  {| response_array := Some (alloc_result "Hi" ∅).1;
     Response.response_count := 1;
     done := true |}.

(** A session on which generation has stopped. *)
Definition stopped_session : Session :=
  {| prompt := "abc";
     max_num_output_tokens := 16;
     response_count := 3;
     last_10_char := "Hi";
     final_output := "Hi";
     cpu_callback := Deliver 0;
     early_stop := true |}.

End Script.


(** ** Further observations *)

(** [t] occurs somewhere in [s]. *)
Definition contains (s t : string) : Prop := exists k, occurs_at s t k.

(** One exchange of the worker with the outside: a request to the
    backend, then the delivery of a context with the text [d.2]. *)
Definition exchange (cb : CCallback) (d : LlmResponseContext * string)
  : list Event :=
  [CallGetNextToken; CallCallback cb d.1 (Some [d.2])].

Fixpoint exchanges (cb : CCallback) (ds : list (LlmResponseContext * string))
  : list Event :=
  match ds with
  | [] => []
  | d :: ds' => exchange cb d ++ exchanges cb ds'
  end.

(** The number of allocated blocks of a heap. *)
Definition blocks (h : gmap addr block) : Z := Z.of_nat (base.size h).

(** What a generation maintains about a stop sequence [t]: once it has
    stopped, [t] does not occur in the output; while it runs, [t] does
    not occur in the output followed by the buffer, the buffer holds at
    most [kCheckLastKChars] characters, and no fewer unless nothing has
    been put out yet. *)
Definition stop_free (t : string) (s : Session) : Prop :=
  if early_stop s then ~ contains (final_output s) t
  else ~ contains (final_output s +:+ last_10_char s) t /\
       size (last_10_char s) <= kCheckLastKChars /\
       (final_output s = EmptyString \/
        kCheckLastKChars <= size (last_10_char s)).

(** The text that the backend decodes in [n] successive requests from
    the state [l]: the piece of the first id of each answer. *)
Fixpoint decoded {L : Type} (e : Engine L) (n : nat) (l : L) : string :=
  match n with
  | O => EmptyString
  | S n' =>
      let '(_, token_ids_per_step, l') := GetNextToken (llm e) l in
      match token_ids_per_step with
      | id :: _ => piece e id +:+ decoded e n' l'
      | [] => EmptyString
      end
  end.

(** The text that is held back: the buffer of a generation that is still
    running. *)
Definition pending (s : Session) : string :=
  if early_stop s then EmptyString else last_10_char s.

(** ** More concrete runs *)

Module Cases.

Import Script.

(** The value of an option, or the given one. *)
Definition got {A : Type} (o : option A) (default : A) : A :=
  match o with
  | Some a => a
  | None => default
  end.

Definition no_context : LlmResponseContext :=
  {| response_array := None; Response.response_count := 0; done := false |}.

(** [hi_context] released once. *)
Definition hi_closed : LlmResponseContext * gmap addr block :=
  got (CloseResponseContext hi_context hi_heap) (no_context, ∅).

(** Asynchronous and synchronous predict on [hi_engine]. *)
Definition hi_async : Session * World (list Z) :=
  final (PredictAsync hi_engine (Deliver 0) "abc" fresh_session
           (world [0; 1; 2; 3]))
    (fresh_session, world []).

Definition hi_sync : LlmResponseContext * Session * World (list Z) :=
  final (PredictSync hi_engine "abc" fresh_session (world [0; 1; 2; 3]))
    (no_context, fresh_session, world []).

(** The empty string configured as the second stop sequence. *)
Definition empty_stop_engine : Engine (list Z) :=
  engine ["Hi"; "there"] ["x"; EmptyString] 20.

Definition empty_stop_async : Session * World (list Z) :=
  final (PredictAsync empty_stop_engine (Deliver 0) "abc" fresh_session
           (world [0; 1]))
    (fresh_session, world []).

(** The session that two requests on [greeting_engine] have worn out. *)
Definition spent_session : Session := reuse_second.1.

(** A backend without state that answers every request with the id 0,
    behind a normalizer that turns every piece into upper case "AB". *)
Definition steady_engine : Engine unit :=
  {| tokenizer := scripted_tokenizer ["ab"];
     normalizer := Some {| Normalize := fun _ => "AB" |};
     llm := {| InitInputTokens := fun _ st => (OkStatus, st);
               GetNextToken := fun st => (OkStatus, [0], st) |};
     start_token_id := 1;
     stop_tokens := [];
     max_num_tokens := 6 |}.

Definition steady_world : World unit :=
  {| llm_state := tt; heap := ∅; trace := [] |}.

End Cases.

(** * Facts *)

(** ** Machine integers *)

Section MachineFacts.

Lemma to_int_id z : in_int z -> to_int z = z.
Proof.
  unfold in_int, to_int, INT_MIN, INT_MAX. intros H.
  rewrite Z.mod_small; lia.
Qed.

Lemma to_int_range z : in_int (to_int z).
Proof.
  unfold in_int, to_int, INT_MIN, INT_MAX.
  pose proof (Z.mod_pos_bound (z + 2 ^ 31) (2 ^ 32)). lia.
Qed.

Lemma to_size_t_id z : 0 <= z <= SIZE_MAX -> to_size_t z = z.
Proof.
  unfold to_size_t, SIZE_MAX. intros H. rewrite Z.mod_small; lia.
Qed.

(** [size_t] to [int] only looks at the low 32 bits. *)
Lemma to_int_to_size_t z : to_int (to_size_t z) = to_int z.
Proof.
  unfold to_int, to_size_t.
  f_equal.
  rewrite (Z.mod_eq z (2 ^ 64)) by lia.
  replace (z - 2 ^ 64 * (z / 2 ^ 64) + 2 ^ 31)
    with (z + 2 ^ 31 + (- 2 ^ 32 * (z / 2 ^ 64)) * 2 ^ 32) by lia.
  apply Z_mod_plus_full.
Qed.

(** A position below [2 ^ 31] survives the trip through [int]. *)
Lemma index_through_int i :
  0 <= i <= INT_MAX -> to_size_t (to_int i) = i /\ i <> npos.
Proof.
  intros H. rewrite to_int_id by (unfold in_int, INT_MIN, INT_MAX in *; lia).
  unfold npos, SIZE_MAX, INT_MAX in *.
  rewrite to_size_t_id by (unfold SIZE_MAX; lia). lia.
Qed.

(** [npos] becomes [-1] as an [int] and [npos] again as a [size_t]. *)
Lemma npos_through_int : to_size_t (to_int npos) = npos.
Proof. reflexivity. Qed.

End MachineFacts.

(** ** Strings *)

Section StringFacts.

Lemma append_nil (b : string) : EmptyString +:+ b = b.
Proof. reflexivity. Qed.

Lemma append_cons (c : ascii) (a b : string) :
  String c a +:+ b = String c (a +:+ b).
Proof. reflexivity. Qed.

Lemma length_append (a b : string) :
  String.length (a +:+ b) = (String.length a + String.length b)%nat.
Proof.
  induction a as [|c a IH]; [reflexivity|].
  rewrite append_cons. simpl. congruence.
Qed.

Lemma append_empty_r (a : string) : a +:+ EmptyString = a.
Proof.
  induction a as [|c a IH]; [reflexivity|]. rewrite append_cons. congruence.
Qed.

Lemma append_assoc (a b c : string) : (a +:+ b) +:+ c = a +:+ (b +:+ c).
Proof.
  induction a as [|x a IH]; [reflexivity|].
  rewrite !append_cons. congruence.
Qed.

Lemma substring_empty (s : string) (n : nat) :
  String.substring n 0 s = EmptyString.
Proof.
  revert n. induction s as [|c s IH]; intros [|n]; simpl; auto.
Qed.

Lemma substring_all (s : string) :
  String.substring 0 (String.length s) s = s.
Proof. induction s as [|c s IH]; simpl; [reflexivity | now rewrite IH]. Qed.

(** A string is its first [n] characters followed by the rest. *)
Lemma substring_split (s : string) (n : nat) :
  (n <= String.length s)%nat ->
  String.substring 0 n s +:+ String.substring n (String.length s - n) s = s.
Proof.
  revert n. induction s as [|c s IH]; intros [|n] Hn; simpl in *;
    try reflexivity; try lia.
  - rewrite append_nil. now rewrite substring_all.
  - rewrite append_cons, IH by lia. reflexivity.
Qed.

Lemma length_substring (s : string) (n m : nat) :
  (n + m <= String.length s)%nat ->
  String.length (String.substring n m s) = m.
Proof.
  revert n m. induction s as [|c s IH]; intros [|n] [|m] H; simpl in *;
    try reflexivity; try lia.
  - rewrite (IH 0%nat m) by lia. reflexivity.
  - apply IH. lia.
  - apply IH. lia.
Qed.

Lemma size_nonneg (s : string) : 0 <= size s.
Proof. unfold size. lia. Qed.

Lemma size_append (a b : string) : size (a +:+ b) = size a + size b.
Proof. unfold size. rewrite length_append. lia. Qed.

(** [s.substr(0, n)] for a count within the string. *)
Lemma substr_prefix (s : string) (n : Z) :
  0 <= n <= size s ->
  substr s 0 n = String.substring 0 (Z.to_nat n) s.
Proof.
  intros H. unfold substr. rewrite Z.sub_0_r, Z.min_l by lia. reflexivity.
Qed.

(** [s.substr(pos)]: everything from [pos] on. *)
Lemma substr_suffix (s : string) (pos : Z) :
  0 <= pos <= size s ->
  substr_from s pos
  = String.substring (Z.to_nat pos) (String.length s - Z.to_nat pos) s.
Proof.
  intros H. unfold substr_from, substr. rewrite Z.min_id.
  f_equal. unfold size in *. lia.
Qed.

(** Cutting a buffer [k] characters before its end loses nothing. *)
Lemma substr_split (s : string) (n : Z) :
  0 <= n <= size s -> substr s 0 n +:+ substr_from s n = s.
Proof.
  intros H. rewrite substr_prefix, substr_suffix by lia.
  apply substring_split. unfold size in *. lia.
Qed.

Lemma size_substr_from (s : string) (n : Z) :
  0 <= n <= size s -> size (substr_from s n) = size s - n.
Proof.
  intros H. rewrite substr_suffix by lia. unfold size in *.
  rewrite length_substring by lia. lia.
Qed.

Lemma size_substr_prefix (s : string) (n : Z) :
  0 <= n <= size s -> size (substr s 0 n) = n.
Proof.
  intros H. rewrite substr_prefix by lia. unfold size in *.
  rewrite length_substring by lia. lia.
Qed.

(** [snprintf "%s"] stops at a NUL character inside the string. *)
Lemma c_str_stops_at_nul :
  c_str (String "a" (String NUL "b")) = "a"
  /\ has_nul (String "a" (String NUL "b")) = true.
Proof. split; reflexivity. Qed.

(** In a string without NUL, [snprintf "%s"] copies everything. *)
Lemma c_str_no_nul (s : string) : has_nul s = false -> c_str s = s.
Proof.
  induction s as [|c s IH]; simpl; [reflexivity|].
  intros H. apply orb_false_iff in H as [Hc Hs].
  rewrite Hc, IH by assumption. reflexivity.
Qed.

Lemma has_nul_append (a b : string) :
  has_nul (a +:+ b) = has_nul a || has_nul b.
Proof.
  induction a as [|c a IH]; [reflexivity|].
  rewrite append_cons. simpl. rewrite IH. now rewrite orb_assoc.
Qed.

Lemma has_nul_substring (s : string) (n m : nat) :
  has_nul s = false -> has_nul (String.substring n m s) = false.
Proof.
  revert n m. induction s as [|c s IH]; intros [|n] [|m] H; simpl in *;
    try reflexivity; try assumption.
  - apply orb_false_iff in H as [Hc Hs]. rewrite Hc. simpl. now apply IH.
  - apply orb_false_iff in H as [Hc Hs]. now apply IH.
  - apply orb_false_iff in H as [Hc Hs]. now apply IH.
Qed.

Lemma has_nul_substr (s : string) (pos n : Z) :
  has_nul s = false -> has_nul (substr s pos n) = false.
Proof. intros H. unfold substr. now apply has_nul_substring. Qed.

Lemma has_nul_substr_from (s : string) (pos : Z) :
  has_nul s = false -> has_nul (substr_from s pos) = false.
Proof. intros H. unfold substr_from. now apply has_nul_substr. Qed.

Lemma find_from_nil (str : string) (i : nat) :
  find_from EmptyString str i
  = if String.prefix str EmptyString then Some i else None.
Proof. reflexivity. Qed.

Lemma find_from_cons (c : ascii) (s str : string) (i : nat) :
  find_from (String c s) str i
  = if String.prefix str (String c s) then Some i
    else find_from s str (S i).
Proof. reflexivity. Qed.

(** What [find_from] returns is an occurrence, and the lowest one. *)
Lemma find_from_Some (s str : string) (i j : nat) :
  find_from s str i = Some j ->
  (i <= j)%nat /\ occurs_at s str (j - i) /\
  (j - i <= String.length s)%nat /\
  forall k, (k < j - i)%nat -> ~ occurs_at s str k.
Proof.
  revert i j. induction s as [|c s IH]; intros i j.
  - rewrite find_from_nil.
    destruct (String.prefix str EmptyString) eqn:Hp; [|discriminate].
    intros [= <-]. rewrite Nat.sub_diag.
    repeat split; try lia. now apply String.prefix_correct.
  - rewrite find_from_cons.
    destruct (String.prefix str (String c s)) eqn:Hp.
    + intros [= <-]. rewrite Nat.sub_diag.
      repeat split; try lia. now apply String.prefix_correct.
    + intros H. apply IH in H as (Hle & Hocc & Hlen & Hmin).
      replace (j - i)%nat with (S (j - S i)) by lia.
      repeat split; try lia.
      * exact Hocc.
      * simpl. lia.
      * intros [|k] Hk Hk'.
        -- apply String.prefix_correct in Hk'. congruence.
        -- apply (Hmin k); [lia | exact Hk'].
Qed.

Lemma find_from_None (s str : string) (i : nat) :
  find_from s str i = None -> forall k, ~ occurs_at s str k.
Proof.
  revert i. induction s as [|c s IH]; intros i.
  - rewrite find_from_nil.
    destruct (String.prefix str EmptyString) eqn:Hp; [discriminate|].
    intros _ k Hk. unfold occurs_at in Hk.
    assert (str = EmptyString) as ->.
    { destruct k, (String.length str); simpl in Hk; congruence. }
    discriminate.
  - rewrite find_from_cons.
    destruct (String.prefix str (String c s)) eqn:Hp; [discriminate|].
    intros H [|k] Hk.
    + apply String.prefix_correct in Hk. congruence.
    + apply (IH _ H k). exact Hk.
Qed.

(** [find] returns the lowest position at which [str] occurs. *)
Lemma find_lowest (s str : string) (i : nat) :
  occurs_at s str i -> (forall k, (k < i)%nat -> ~ occurs_at s str k) ->
  find s str = Z.of_nat i /\ (i <= String.length s)%nat.
Proof.
  intros Hocc Hmin. unfold find.
  destruct (find_from s str 0) as [j|] eqn:Hf.
  - apply find_from_Some in Hf as (_ & Hocc' & Hlen & Hmin').
    rewrite Nat.sub_0_r in *.
    destruct (Nat.lt_trichotomy i j) as [Hlt|[->|Hgt]].
    + exfalso. now apply (Hmin' i).
    + split; [reflexivity | assumption].
    + exfalso. now apply (Hmin j).
  - exfalso. now apply (find_from_None _ _ _ Hf i).
Qed.

Lemma find_absent (s str : string) :
  (forall k, ~ occurs_at s str k) -> find s str = npos.
Proof.
  intros H. unfold find.
  destruct (find_from s str 0) as [j|] eqn:Hf; [|reflexivity].
  apply find_from_Some in Hf as (_ & Hocc & _). now apply H in Hocc.
Qed.

End StringFacts.

(** ** The stop-sequence matcher *)

Section MatcherFacts.

Implicit Types (s : Session) (tokens : list string).

Lemma stop_token_loop_cons_absent tokens s stop_token :
  (forall k, ~ occurs_at (last_10_char s) stop_token k) ->
  stop_token_loop (stop_token :: tokens) s = stop_token_loop tokens s.
Proof.
  intros H. cbn [stop_token_loop].
  rewrite (find_absent _ _ H), npos_through_int, Z.eqb_refl. reflexivity.
Qed.

Lemma stop_token_loop_cons_present tokens s stop_token i :
  size (last_10_char s) <= INT_MAX ->
  occurs_at (last_10_char s) stop_token i ->
  (forall k, (k < i)%nat -> ~ occurs_at (last_10_char s) stop_token k) ->
  stop_token_loop (stop_token :: tokens) s
  = set_last_10_char (String.substring 0 i (last_10_char s))
      (set_early_stop true s).
Proof.
  intros Hsize Hocc Hmin. cbn [stop_token_loop].
  destruct (find_lowest _ _ _ Hocc Hmin) as [-> Hlen].
  assert (Hi : 0 <= Z.of_nat i <= INT_MAX) by (unfold size in Hsize; lia).
  destruct (index_through_int _ Hi) as [-> Hne].
  apply Z.eqb_neq in Hne. rewrite Hne. cbn [negb].
  cbn [last_10_char set_early_stop].
  rewrite substr_prefix by (unfold size; lia).
  now rewrite Nat2Z.id.
Qed.

(** When no configured sequence occurs, the matcher changes nothing. *)
Lemma stop_token_loop_absent tokens s :
  (forall t, In t tokens -> forall k, ~ occurs_at (last_10_char s) t k) ->
  stop_token_loop tokens s = s.
Proof.
  induction tokens as [|t tokens IH]; intros H; [reflexivity|].
  rewrite stop_token_loop_cons_absent by (apply H; now left).
  apply IH. intros u Hu. apply H. now right.
Qed.

(** C1, as the code has it, for a buffer shorter than [2 ^ 31]
    characters, so that the index fits the [int] it is stored in.  The
    matcher takes the first sequence, in the order of configuration,
    that occurs in the buffer at all, sets [early_stop] and cuts the
    buffer at the lowest starting index of that sequence; sequences
    configured after it are not looked at.  When no configured sequence
    occurs, the matcher leaves the session as it was: the buffer and
    the flag are unchanged. *)
Theorem stop_token_loop_first_configured tokens s :
  size (last_10_char s) <= INT_MAX ->
  (forall (before after : list string) (stop_token : string) (i : nat),
      tokens = before ++ stop_token :: after ->
      (forall t, In t before -> forall k, ~ occurs_at (last_10_char s) t k) ->
      occurs_at (last_10_char s) stop_token i ->
      (forall k, (k < i)%nat -> ~ occurs_at (last_10_char s) stop_token k) ->
      stop_token_loop tokens s
      = set_last_10_char (String.substring 0 i (last_10_char s))
          (set_early_stop true s)) /\
  ((forall t, In t tokens -> forall k, ~ occurs_at (last_10_char s) t k) ->
   stop_token_loop tokens s = s /\
   last_10_char (stop_token_loop tokens s) = last_10_char s /\
   early_stop (stop_token_loop tokens s) = early_stop s).
Proof.
  intros Hsize. split.
  - intros before after stop_token i -> Habsent Hocc Hmin.
    induction before as [|t before IH]; cbn [app].
    + now apply stop_token_loop_cons_present.
    + rewrite stop_token_loop_cons_absent by (apply Habsent; now left).
      apply IH. intros u Hu. apply Habsent. now right.
  - intros Habsent.
    assert (Hsame : stop_token_loop tokens s = s).
    { induction tokens as [|t tokens IH]; [reflexivity|].
      rewrite stop_token_loop_cons_absent by (apply Habsent; now left).
      apply IH. intros u Hu. apply Habsent. now right. }
    now rewrite Hsame.
Qed.

(** The buffer "abXcdY" with the sequences "Y" and "X" configured in that
    order: "Y" is found first and the buffer is cut at index 5.  With
    "Q" and "cY" configured, neither of which occurs, the session stays
    as it was. *)
Lemma stop_token_loop_first_configured_witness :
  stop_token_loop ["Y"; "X"]
    (set_last_10_char "abXcdY" Script.fresh_session)
  = set_last_10_char "abXcd"
      (set_early_stop true (set_last_10_char "abXcdY" Script.fresh_session))
  /\ stop_token_loop ["Q"; "cY"]
       (set_last_10_char "abXcdY" Script.fresh_session)
     = set_last_10_char "abXcdY" Script.fresh_session.
Proof.
  assert (Hsize : size (last_10_char
                          (set_last_10_char "abXcdY" Script.fresh_session))
                  <= INT_MAX) by (vm_compute; discriminate).
  split.
  - apply (proj1 (stop_token_loop_first_configured ["Y"; "X"]
                    (set_last_10_char "abXcdY" Script.fresh_session) Hsize)
             [] ["X"] "Y" 5%nat).
    + reflexivity.
    + intros t [].
    + reflexivity.
    + intros k Hk. do 5 (destruct k as [|k]; [vm_compute; discriminate|]).
      lia.
  - apply (proj2 (stop_token_loop_first_configured ["Q"; "cY"]
                    (set_last_10_char "abXcdY" Script.fresh_session) Hsize)).
    intros t [<- | [<- | []]] k;
      do 7 (destruct k as [|k]; [vm_compute; discriminate|]);
      vm_compute; discriminate.
Defined.

(** C1 fails as stated: with "Y" configured before "X", the buffer
    "abXcdY" is cut at the "Y" (index 5), while the match with the lowest
    starting index is the "X" at index 2. *)
Lemma stop_token_loop_not_earliest :
  let s := set_last_10_char "abXcdY" Script.fresh_session in
  last_10_char (stop_token_loop ["Y"; "X"] s) = "abXcd" /\
  Spec.earliest_match (last_10_char s) ["Y"; "X"] = Some 2%nat /\
  Spec.truncate_at_earliest (last_10_char s) ["Y"; "X"] = "ab" /\
  last_10_char (stop_token_loop ["Y"; "X"] s)
  <> Spec.truncate_at_earliest (last_10_char s) ["Y"; "X"].
Proof.
  repeat split; try reflexivity. vm_compute. discriminate.
Qed.

End MatcherFacts.

(** ** Releasing a response context *)

Section ReleaseFacts.

Implicit Types (h : gmap addr block) (ctx : LlmResponseContext).

Lemma lookup_released h (ps : list addr) (q : addr) :
  released h ps !! q = if decide (q ∈ ps) then None else h !! q.
Proof.
  revert h. induction ps as [|p ps IH]; intros h; cbn [released foldl].
  - case_decide as Hq; [|reflexivity]. now apply elem_of_nil in Hq.
  - change (foldl _ (delete p h) ps) with (released (delete p h) ps).
    rewrite IH.
    destruct (decide (q ∈ ps)) as [Hin|Hout];
      destruct (decide (q ∈ p :: ps)) as [Hin'|Hout']; try reflexivity.
    + exfalso. apply Hout'. now right.
    + apply elem_of_cons in Hin' as [->|Hin']; [|contradiction].
      apply lookup_delete_eq.
    + apply lookup_delete_ne. intros ->. apply Hout'. now left.
Qed.

(** The loop of [CloseResponseContext] frees the entries one by one. *)
Lemma free_entries_released (a : addr) (slots : list (option addr))
    (todo : list addr) (i : nat) h :
  h !! a = Some (PtrBlock slots) ->
  (forall j p, todo !! j = Some p -> slots !! (i + j)%nat = Some (Some p)) ->
  NoDup todo ->
  a ∉ todo ->
  (forall p, p ∈ todo -> is_Some (h !! p)) ->
  free_entries (length todo) i (Some a) h = Some (released h todo).
Proof.
  revert i h. induction todo as [|p todo IH]; intros i h Ha Hslots Hnd Hna Hal.
  - reflexivity.
  - cbn [length free_entries]. rewrite Ha.
    pose proof (Hslots 0%nat p eq_refl) as H0.
    rewrite Nat.add_0_r in H0. rewrite H0.
    destruct (Hal p) as [b Hb]; [set_solver|].
    cbn [free]. rewrite Hb.
    apply NoDup_cons in Hnd as [Hp Hnd].
    cbn [released foldl].
    change (foldl _ (delete p h) todo) with (released (delete p h) todo).
    apply IH; try assumption.
    + rewrite lookup_delete_ne; [assumption|]. set_solver.
    + intros j q Hq. specialize (Hslots (S j) q Hq).
      now replace (S i + j)%nat with (i + S j)%nat by lia.
    + set_solver.
    + intros q Hq. rewrite lookup_delete_ne; [apply Hal; set_solver|].
      intros ->. contradiction.
Qed.

(** C9: on a context that owns its entries, [CloseResponseContext]
    frees every entry and the array, leaves the rest of the heap as it
    was, and returns the context with count 0 and a null array. *)
Theorem CloseResponseContext_releases ctx h (a : addr) (entries : list addr) :
  owns ctx h a entries ->
  exists ctx' h',
    CloseResponseContext ctx h = Some (ctx', h') /\
    Response.response_count ctx' = 0 /\
    response_array ctx' = None /\
    h' !! a = None /\
    (forall p, p ∈ entries -> h' !! p = None) /\
    (forall q, q <> a -> q ∉ entries -> h' !! q = h !! q).
Proof.
  intros (Harr & Ha & Hcount & Hmax & Hnd & Hchars).
  assert (Hna : a ∉ entries).
  { intros Hin. destruct (Hchars a Hin) as [text Ht]. congruence. }
  unfold CloseResponseContext.
  rewrite to_size_t_id by lia.
  rewrite Hcount, Nat2Z.id, Harr.
  rewrite (free_entries_released a (Some <$> entries) entries 0 h);
    try assumption.
  - assert (Hstill : released h entries !! a = Some (PtrBlock (Some <$> entries))).
    { rewrite lookup_released. case_decide; [contradiction | assumption]. }
    cbn [free]. rewrite Hstill.
    eexists _, _. split; [reflexivity|].
    cbn [Response.response_count response_array].
    repeat split.
    + apply lookup_delete_eq.
    + intros p Hp. rewrite lookup_delete_ne by (intros ->; contradiction).
      rewrite lookup_released. now case_decide.
    + intros q Hqa Hq. rewrite lookup_delete_ne by congruence.
      rewrite lookup_released. now case_decide.
  - intros j p Hj. cbn [Nat.add]. rewrite list_lookup_fmap, Hj. reflexivity.
  - intros p Hp. destruct (Hchars p Hp) as [text Ht]. eauto.
Qed.

End ReleaseFacts.

(** ** Building a response context *)

Section AllocFacts.

Implicit Types (h : gmap addr block).

Lemma malloc_fresh h : h !! malloc h = None.
Proof. apply not_elem_of_dom. unfold malloc. apply is_fresh. Qed.

(** The two blocks of [alloc_result] are new and distinct, and hold the
    array with its one slot and the C string. *)
Lemma alloc_result_blocks (responses : string) h :
  exists a p,
    alloc_result responses h
    = (a, <[p := CharBlock (c_str responses)]>
            (<[a := PtrBlock [Some p]]> h)) /\
    h !! a = None /\ h !! p = None /\ a <> p.
Proof.
  unfold alloc_result.
  set (a := malloc h).
  set (p := malloc (<[a := PtrBlock [None]]> h)).
  assert (Ha : h !! a = None) by apply malloc_fresh.
  assert (Hp : <[a := PtrBlock [None]]> h !! p = None) by apply malloc_fresh.
  assert (Hne : a <> p).
  { intros Heq. rewrite <- Heq, lookup_insert_eq in Hp. discriminate. }
  rewrite lookup_insert_ne in Hp by assumption.
  exists a, p. repeat split; try assumption.
  f_equal. apply map_eq. intros q.
  destruct (decide (q = p)) as [->|Hqp].
  - now rewrite !lookup_insert_eq.
  - rewrite !(lookup_insert_ne _ p q) by congruence.
    destruct (decide (q = a)) as [->|Hqa].
    + now rewrite !lookup_insert_eq.
    + rewrite !(lookup_insert_ne _ a q) by congruence.
      rewrite !(lookup_insert_ne _ p q) by congruence.
      now rewrite !(lookup_insert_ne _ a q) by congruence.
Qed.

(** A receiver of the context reads one text, the C string of
    [responses]. *)
Lemma read_alloc_result (responses : string) h (a : addr)
    (h' : gmap addr block) (d : bool) :
  alloc_result responses h = (a, h') ->
  read_response {| response_array := Some a;
                   Response.response_count := 1;
                   done := d |} h'
  = Some [c_str responses].
Proof.
  destruct (alloc_result_blocks responses h) as (a0 & p & -> & Ha & Hp & Hne).
  intros [= <- <-]. unfold read_response, read_slots.
  cbn [response_array Response.response_count].
  rewrite lookup_insert_ne, lookup_insert_eq by congruence.
  change (Z.to_nat 1) with 1%nat.
  cbn [take read_entries read_entry]. rewrite lookup_insert_eq. reflexivity.
Qed.

(** The context built by [alloc_result] owns its array and its entry,
    so it is one that [CloseResponseContext] may be called on. *)
Lemma alloc_result_owns (responses : string) h (a : addr)
    (h' : gmap addr block) (d : bool) :
  alloc_result responses h = (a, h') ->
  exists p,
    owns {| response_array := Some a;
            Response.response_count := 1;
            done := d |} h' a [p].
Proof.
  destruct (alloc_result_blocks responses h) as (a0 & p & -> & Ha & Hp & Hne).
  intros [= <- <-]. exists p. unfold owns.
  cbn [response_array Response.response_count].
  repeat split.
  - rewrite lookup_insert_ne, lookup_insert_eq by congruence. reflexivity.
  - unfold SIZE_MAX. lia.
  - apply NoDup_singleton.
  - intros q Hq. apply list_elem_of_singleton in Hq as ->.
    rewrite lookup_insert_eq. eauto.
Qed.

End AllocFacts.

(** ** One activation of the decode loop *)

Section StepFacts.

Context {L : Type}.
Implicit Types (e : Engine L) (s : Session) (w : World L).

Lemma stop_token_loop_frame (tokens : list string) s :
  same_request s (stop_token_loop tokens s) /\
  final_output (stop_token_loop tokens s) = final_output s.
Proof.
  induction tokens as [|t tokens IH]; cbn [stop_token_loop].
  - now repeat split.
  - destruct (negb _); [now repeat split | exact IH].
Qed.

Lemma take_ready_char_frame s :
  same_request s (take_ready_char s).2 /\
  final_output (take_ready_char s).2 = final_output s /\
  early_stop (take_ready_char s).2 = early_stop s.
Proof.
  unfold take_ready_char.
  destruct (early_stop s) eqn:Hes; [now repeat split|].
  destruct (_ >? _); now repeat split.
Qed.

(** The matcher never clears [early_stop]. *)
Lemma stop_token_loop_early_stop (tokens : list string) s :
  early_stop s = true -> early_stop (stop_token_loop tokens s) = true.
Proof.
  induction tokens as [|t tokens IH]; cbn [stop_token_loop]; intros H.
  - assumption.
  - destruct (negb _); [reflexivity | now apply IH].
Qed.

Lemma stop_token_loop_no_nul (tokens : list string) s :
  has_nul (last_10_char s) = false ->
  has_nul (last_10_char (stop_token_loop tokens s)) = false.
Proof.
  induction tokens as [|t tokens IH]; cbn [stop_token_loop]; intros H.
  - assumption.
  - destruct (negb _); [|now apply IH].
    cbn [last_10_char set_last_10_char set_early_stop].
    now apply has_nul_substr.
Qed.

(** [ready_char] and the buffer that is kept make up the buffer that
    [take_ready_char] was given when [early_stop] is not set. *)
Lemma take_ready_char_split s :
  early_stop s = false ->
  (take_ready_char s).1 +:+ last_10_char (take_ready_char s).2
  = last_10_char s.
Proof.
  intros Hes. unfold take_ready_char. rewrite Hes.
  destruct (size (last_10_char s) >? kCheckLastKChars) eqn:Hgt.
  - apply Z.gtb_lt in Hgt. cbn [fst snd last_10_char set_last_10_char].
    apply substr_split. unfold kCheckLastKChars in *. lia.
  - reflexivity.
Qed.

Lemma take_ready_char_no_nul s :
  has_nul (last_10_char s) = false ->
  has_nul (take_ready_char s).1 = false /\
  has_nul (last_10_char (take_ready_char s).2) = false.
Proof.
  intros H. unfold take_ready_char.
  destruct (early_stop s); [now split|].
  destruct (_ >? _); cbn [fst snd last_10_char set_last_10_char].
  - split; [now apply has_nul_substr | now apply has_nul_substr_from].
  - now split.
Qed.

(** [absorb_token] in terms of its parts. *)
Lemma absorb_token_eq e (token : string) s :
  let s1 := if response_count s =? max_num_output_tokens s
            then set_early_stop true s else s in
  let s2 := set_last_10_char (last_10_char s1 +:+ token) s1 in
  let s3 := stop_token_loop (stop_tokens e) s2 in
  absorb_token e token s
  = ((take_ready_char s3).1,
     set_final_output
       (final_output (take_ready_char s3).2 +:+ (take_ready_char s3).1)
       (take_ready_char s3).2).
Proof.
  cbn zeta. unfold absorb_token.
  destruct (take_ready_char _) as [ready s']. reflexivity.
Qed.

Lemma absorb_token_frame e (token : string) s :
  same_request s (absorb_token e token s).2 /\
  final_output (absorb_token e token s).2
  = final_output s +:+ (absorb_token e token s).1.
Proof.
  rewrite absorb_token_eq. cbn [fst snd].
  set (s1 := if _ =? _ then _ else s).
  set (s2 := set_last_10_char _ s1).
  set (s3 := stop_token_loop _ s2).
  destruct (take_ready_char_frame s3) as ((Hp & Hm & Hc & Hcb) & Hf & _).
  destruct (stop_token_loop_frame (stop_tokens e) s2)
    as ((Hp' & Hm' & Hc' & Hcb') & Hf').
  fold s3 in Hp', Hm', Hc', Hcb', Hf'.
  assert (Hs1 : same_request s s1 /\ final_output s1 = final_output s).
  { subst s1. destruct (_ =? _); now repeat split. }
  destruct Hs1 as ((Hp1 & Hm1 & Hc1 & Hcb1) & Hf1).
  unfold same_request.
  cbn [prompt max_num_output_tokens response_count cpu_callback
       final_output set_final_output].
  rewrite Hp, Hm, Hc, Hcb, Hf, Hp', Hm', Hc', Hcb', Hf'. subst s2.
  cbn [prompt max_num_output_tokens response_count cpu_callback
       final_output set_last_10_char].
  rewrite Hp1, Hm1, Hc1, Hcb1, Hf1. now repeat split.
Qed.

(** At the output ceiling [early_stop] is set. *)
Lemma absorb_token_ceiling e (token : string) s :
  response_count s = max_num_output_tokens s ->
  early_stop (absorb_token e token s).2 = true.
Proof.
  intros Heq. rewrite absorb_token_eq. cbn [fst snd].
  apply Z.eqb_eq in Heq. rewrite Heq.
  cbn [early_stop set_final_output].
  destruct (take_ready_char_frame
              (stop_token_loop (stop_tokens e)
                 (set_last_10_char
                    (last_10_char (set_early_stop true s) +:+ token)
                    (set_early_stop true s)))) as (_ & _ & ->).
  now apply stop_token_loop_early_stop.
Qed.

Lemma absorb_token_no_nul e (token : string) s :
  has_nul token = false ->
  has_nul (last_10_char s) = false ->
  has_nul (absorb_token e token s).1 = false /\
  has_nul (last_10_char (absorb_token e token s).2) = false.
Proof.
  intros Ht Hs. rewrite absorb_token_eq. cbn [fst snd].
  cbn [last_10_char set_final_output].
  apply take_ready_char_no_nul, stop_token_loop_no_nul.
  cbn [last_10_char set_last_10_char].
  rewrite has_nul_append, Ht, orb_false_r.
  destruct (_ =? _); assumption.
Qed.

End StepFacts.

Section BodyFacts.

Context {L : Type}.
Implicit Types (e : Engine L) (s : Session) (w : World L).

(** What the callback lambda adds to the trace: one delivery of a
    one-entry context whose text is the C string of [responses] and whose
    [done] is [early_stop]. *)
Lemma call_cpu_callback_trace s (responses : string) w :
  exists ctx,
    trace (call_cpu_callback s responses w)
    = trace w ++ [CallCallback (cpu_callback s) ctx (Some [c_str responses])] /\
    Response.response_count ctx = 1 /\
    done ctx = early_stop s /\
    llm_state (call_cpu_callback s responses w) = llm_state w.
Proof.
  unfold call_cpu_callback.
  destruct (alloc_result responses (heap w)) as [a h'] eqn:Ha.
  eexists. cbn [trace llm_state].
  rewrite (read_alloc_result _ _ _ _ _ Ha). now repeat split.
Qed.

(** An activation that goes on to call itself has asked the backend for
    one token, absorbed its text and called the callback. *)
Lemma next_token_body_Again e s w s' w' :
  next_token_body e s w = Returns (Again, s', w') ->
  response_count s < max_num_output_tokens s /\
  early_stop s = false /\
  exists id ids l,
    GetNextToken (llm e) (llm_state w) = (OkStatus, id :: ids, l) /\
    let s0 := set_response_count (to_int (response_count s + 1)) s in
    s' = (absorb_token e (piece e id) s0).2 /\
    w' = call_cpu_callback s' (absorb_token e (piece e id) s0).1
           (log_event CallGetNextToken
              {| llm_state := l; heap := heap w; trace := trace w |}).
Proof.
  unfold next_token_body.
  cbn [max_num_output_tokens early_stop set_response_count].
  destruct (response_count s <? max_num_output_tokens s) eqn:Hlt;
    [|discriminate].
  destruct (early_stop s) eqn:Hes; [discriminate|].
  destruct (GetNextToken (llm e) (llm_state w)) as [[status ids] l] eqn:Hg.
  destruct status as [|message]; cbn [ok negb]; [|discriminate].
  destruct ids as [|id ids]; [discriminate|].
  destruct (absorb_token e (piece e id) _) as [ready s1] eqn:Hab.
  intros [= <- <-]. apply Z.ltb_lt in Hlt.
  split; [assumption|]. split; [reflexivity|].
  exists id, ids, l. split; [reflexivity|]. cbn zeta.
  rewrite Hab. split; reflexivity.
Qed.

(** An activation that returns has only counted itself. *)
Lemma next_token_body_Stop e s w s' w' :
  next_token_body e s w = Returns (Stop, s', w') ->
  w' = w /\
  s' = set_response_count (to_int (response_count s + 1)) s /\
  (max_num_output_tokens s <= response_count s \/ early_stop s = true).
Proof.
  unfold next_token_body.
  cbn [max_num_output_tokens early_stop set_response_count].
  destruct (response_count s <? max_num_output_tokens s) eqn:Hlt.
  - destruct (early_stop s) eqn:Hes.
    + intros [= <- <-]. repeat split. now right.
    + destruct (GetNextToken (llm e) (llm_state w)) as [[status ids] l].
      destruct status as [|message]; cbn [ok negb]; [|discriminate].
      destruct ids as [|id ids]; [discriminate|].
      destruct (absorb_token e (piece e id) _) as [ready s1].
      discriminate.
  - intros [= <- <-]. apply Z.ltb_ge in Hlt. repeat split. now left.
Qed.

(** With [early_stop] set an activation returns at once, whatever the
    counter: nothing is asked of the backend and nothing is delivered. *)
Lemma next_token_body_early_stop e s w :
  early_stop s = true ->
  next_token_body e s w
  = Returns (Stop, set_response_count (to_int (response_count s + 1)) s, w).
Proof.
  intros Hes. unfold next_token_body.
  cbn [max_num_output_tokens early_stop set_response_count].
  rewrite Hes. now destruct (_ <? _).
Qed.

Lemma take_ready_char_no_stop s :
  let ready := (take_ready_char s).1 in
  let s' := (take_ready_char s).2 in
  (early_stop s = true -> ready = last_10_char s /\ s' = s) /\
  (early_stop s = false ->
     ready +:+ last_10_char s' = last_10_char s /\
     (ready <> EmptyString -> size (last_10_char s') = kCheckLastKChars) /\
     (ready = EmptyString ->
        size (last_10_char s) <= kCheckLastKChars /\ s' = s)).
Proof.
  cbn zeta. split; intros Hes.
  - unfold take_ready_char. rewrite Hes. now split.
  - split; [now apply take_ready_char_split|].
    unfold take_ready_char. rewrite Hes.
    destruct (size (last_10_char s) >? kCheckLastKChars) eqn:Hgt;
      cbn [fst snd last_10_char set_last_10_char].
    + apply Z.gtb_lt in Hgt. unfold kCheckLastKChars in *. split.
      * intros _. rewrite size_substr_from by lia. lia.
      * intros Hempty. exfalso.
        assert (Hz : size (substr (last_10_char s) 0
                             (size (last_10_char s) - 10)) = 0)
          by now rewrite Hempty.
        rewrite size_substr_prefix in Hz by lia. lia.
    + split; [congruence|]. intros _. split; [|reflexivity].
      destruct (Z.gtb_spec (size (last_10_char s)) kCheckLastKChars);
        [discriminate | lia].
Qed.

End BodyFacts.

(** ** The lookahead buffer *)

Section LookaheadFacts.

Context {L : Type}.
Implicit Types (e : Engine L) (s : Session) (w : World L).

(** C5: with no stop sequence configured, take any activation that
    decodes a token [token] and delivers [ready].  While generation goes
    on ([early_stop] still unset), [ready] and the buffer that is kept
    make up the old buffer followed by [token]; when [ready] is not
    empty, that is when something was flushed, exactly
    [kCheckLastKChars] = 10 characters are kept; when it is empty the
    whole buffer, of at most 10 characters, is kept.  In the activation
    that stops generation ([early_stop] set), [ready] is the entire
    buffer. *)
Theorem lookahead_window_retained e s w s' w' :
  stop_tokens e = [] ->
  next_token_body e s w = Returns (Again, s', w') ->
  exists (token ready : string) ctx,
    trace w' = trace w ++
      [CallGetNextToken;
       CallCallback (cpu_callback s') ctx (Some [c_str ready])] /\
    done ctx = early_stop s' /\
    final_output s' = final_output s +:+ ready /\
    (early_stop s' = false ->
       ready +:+ last_10_char s' = last_10_char s +:+ token /\
       (ready <> EmptyString ->
          size (last_10_char s') = kCheckLastKChars) /\
       (ready = EmptyString ->
          last_10_char s' = last_10_char s +:+ token /\
          size (last_10_char s') <= kCheckLastKChars)) /\
    (early_stop s' = true -> ready = last_10_char s +:+ token).
Proof.
  intros Hstop Hbody.
  apply next_token_body_Again in Hbody
    as (Hlt & Hes & id & ids & l & Hget & Hs' & Hw').
  cbn zeta in Hs', Hw'.
  set (s0 := set_response_count (to_int (response_count s + 1)) s) in *.
  exists (piece e id), (absorb_token e (piece e id) s0).1.
  destruct (call_cpu_callback_trace s' (absorb_token e (piece e id) s0).1
              (log_event CallGetNextToken
                 {| llm_state := l; heap := heap w; trace := trace w |}))
    as (ctx & Htr & _ & Hdone & _).
  exists ctx. rewrite <- Hw' in Htr.
  split.
  { rewrite Htr. cbn [trace log_event]. now rewrite <- app_assoc. }
  split; [assumption|].
  destruct (absorb_token_frame e (piece e id) s0) as (_ & Hfo).
  rewrite <- Hs' in Hfo. split; [exact Hfo|].
  rewrite absorb_token_eq in Hs'. rewrite absorb_token_eq.
  rewrite Hstop in *. cbn [stop_token_loop fst snd] in *.
  set (s1 := if response_count s0 =? max_num_output_tokens s0
             then set_early_stop true s0 else s0) in *.
  set (s2 := set_last_10_char (last_10_char s1 +:+ piece e id) s1) in *.
  assert (Hbuf : last_10_char s2 = last_10_char s +:+ piece e id).
  { subst s2 s1 s0. now destruct (_ =? _). }
  assert (Hes' : early_stop s' = early_stop s2).
  { rewrite Hs'. cbn [early_stop set_final_output].
    now destruct (take_ready_char_frame s2) as (_ & _ & ->). }
  assert (Hbuf' : last_10_char s' = last_10_char (take_ready_char s2).2).
  { now rewrite Hs'. }
  destruct (take_ready_char_no_stop s2) as [Hfinal Hgoing].
  cbn zeta in Hfinal, Hgoing. rewrite Hes', Hbuf', <- Hbuf.
  split.
  - intros Hfalse. destruct (Hgoing Hfalse) as (Hsplit & Hten & Hnone).
    split; [assumption|]. split; [assumption|].
    intros Hempty. destruct (Hnone Hempty) as [Hle ->]. now split.
  - intros Htrue. now destruct (Hfinal Htrue) as [-> _].
Qed.

End LookaheadFacts.

(** ** The recursion of [next_token_function] *)

Section RunFacts.

Context {L : Type}.
Implicit Types (e : Engine L) (s : Session) (w : World L).

Lemma next_token_body_frame e s w c s' w' :
  next_token_body e s w = Returns (c, s', w') ->
  prompt s' = prompt s /\
  max_num_output_tokens s' = max_num_output_tokens s /\
  cpu_callback s' = cpu_callback s /\
  response_count s' = to_int (response_count s + 1).
Proof.
  destruct c; intros H.
  - apply next_token_body_Again in H as (_ & _ & id & ids & l & _ & -> & _).
    destruct (absorb_token_frame e (piece e id)
                (set_response_count (to_int (response_count s + 1)) s))
      as ((Hp & Hm & Hc & Hcb) & _).
    rewrite Hp, Hm, Hc, Hcb. now repeat split.
  - apply next_token_body_Stop in H as (_ & -> & _). now repeat split.
Qed.

(** Induction along the activations of a run that returns. *)
Lemma next_token_fuel_ind e (P : Session -> World L -> Session -> World L -> Prop) :
  (forall s w s' w',
      next_token_body e s w = Returns (Stop, s', w') -> P s w s' w') ->
  (forall s w s1 w1 s' w',
      next_token_body e s w = Returns (Again, s1, w1) ->
      P s1 w1 s' w' -> P s w s' w') ->
  forall fuel s w s' w',
    next_token_fuel fuel e s w = Returns (s', w') -> P s w s' w'.
Proof.
  intros Hstop Hagain. induction fuel as [|fuel IH]; intros s w s' w' H.
  - discriminate.
  - cbn [next_token_fuel] in H.
    destruct (next_token_body e s w) as [[[[] s1] w1]| | |] eqn:Hb;
      try discriminate.
    + eapply Hagain; [exact Hb|]. now apply IH.
    + injection H as <- <-. now apply Hstop.
Qed.

(** More fuel does not change a result. *)
Lemma next_token_fuel_more e (fuel extra : nat) s w :
  next_token_fuel fuel e s w <> OutOfFuel ->
  next_token_fuel (fuel + extra) e s w = next_token_fuel fuel e s w.
Proof.
  revert s w. induction fuel as [|fuel IH]; intros s w H.
  - now contradict H.
  - cbn [next_token_fuel Nat.add] in *.
    destruct (next_token_body e s w) as [[[[] s1] w1]| | |];
      try reflexivity.
    now apply IH.
Qed.

Lemma next_token_body_fuel e s w : next_token_body e s w <> OutOfFuel.
Proof.
  unfold next_token_body.
  destruct (_ <? _); [|discriminate].
  destruct (early_stop _); [discriminate|].
  destruct (GetNextToken _ _) as [[status ids] l].
  destruct (negb _); [discriminate|].
  destruct ids; [discriminate|].
  destruct (absorb_token _ _ _). discriminate.
Qed.

(** The counter moves up in every activation that recurses. *)
Lemma measure_decreases (count ceiling : Z) :
  count < ceiling -> ceiling <= INT_MAX ->
  (Z.to_nat (ceiling - to_int (count + 1)) < Z.to_nat (ceiling - count))%nat.
Proof.
  intros Hlt Hmax.
  destruct (Z_lt_le_dec count INT_MIN) as [Hlow|Hlow].
  - pose proof (to_int_range (count + 1)) as [Hr _]. lia.
  - rewrite to_int_id by (unfold in_int; lia). lia.
Qed.

(** The fuel that [next_token_function] takes is enough: with a ceiling
    that is an [int], the recursion ends by itself. *)
Lemma next_token_fuel_enough e (fuel : nat) s w :
  max_num_output_tokens s <= INT_MAX ->
  (Z.to_nat (max_num_output_tokens s - response_count s) < fuel)%nat ->
  next_token_fuel fuel e s w <> OutOfFuel.
Proof.
  revert s w. induction fuel as [|fuel IH]; intros s w Hmax Hfuel; [lia|].
  cbn [next_token_fuel].
  destruct (next_token_body e s w) as [[[[] s1] w1]| | |] eqn:Hb;
    try discriminate.
  - destruct (next_token_body_frame _ _ _ _ _ _ Hb) as (_ & Hm & _ & Hc).
    apply next_token_body_Again in Hb as (Hlt & _).
    apply IH; rewrite Hm, ?Hc; [assumption|].
    pose proof (measure_decreases _ _ Hlt Hmax). lia.
  - now apply next_token_body_fuel in Hb.
Qed.

Lemma next_token_function_total e s w :
  max_num_output_tokens s <= INT_MAX ->
  next_token_function e s w <> OutOfFuel.
Proof. intros H. apply next_token_fuel_enough; [assumption | lia]. Qed.

(** [next_token_function] is the recursive function of the source: one
    activation, then itself again unless the activation returned. *)
Lemma next_token_function_unfold e s w :
  max_num_output_tokens s <= INT_MAX ->
  next_token_function e s w
  = match next_token_body e s w with
    | Returns (Again, s', w') => next_token_function e s' w'
    | Returns (Stop, s', w') => Returns (s', w')
    | Fatal message => Fatal message
    | Undefined => Undefined
    | OutOfFuel => OutOfFuel
    end.
Proof.
  intros Hmax. unfold next_token_function at 1. cbn [next_token_fuel].
  destruct (next_token_body e s w) as [[[[] s1] w1]| | |] eqn:Hb;
    try reflexivity.
  destruct (next_token_body_frame _ _ _ _ _ _ Hb) as (_ & Hm & _ & Hc).
  pose proof Hb as Hb'.
  apply next_token_body_Again in Hb' as (Hlt & _).
  pose proof (measure_decreases _ _ Hlt Hmax) as Hdec.
  unfold next_token_function. rewrite Hm, Hc.
  set (small := S (Z.to_nat (max_num_output_tokens s
                             - to_int (response_count s + 1)))).
  replace (Z.to_nat (max_num_output_tokens s - response_count s))
    with (small + (Z.to_nat (max_num_output_tokens s - response_count s)
                   - small))%nat by (subst small; lia).
  apply next_token_fuel_more, next_token_fuel_enough.
  - now rewrite Hm.
  - rewrite Hm, Hc. subst small. lia.
Qed.

(** Once [early_stop] is set, [next_token_function] returns without a
    request to the backend and without a delivery. *)
Lemma next_token_function_early_stop e s w :
  early_stop s = true ->
  next_token_function e s w
  = Returns (set_response_count (to_int (response_count s + 1)) s, w).
Proof.
  intros Hes. unfold next_token_function. cbn [next_token_fuel].
  now rewrite next_token_body_early_stop.
Qed.

End RunFacts.

(** ** Observations on traces *)

Section TraceFacts.

Lemma requests_app (a b : list Event) :
  requests (a ++ b) = requests a + requests b.
Proof. unfold requests. rewrite filter_app, length_app. lia. Qed.

Lemma requests_nonneg (a : list Event) : 0 <= requests a.
Proof. unfold requests. lia. Qed.

Lemma done_flags_app (a b : list Event) :
  done_flags (a ++ b) = done_flags a ++ done_flags b.
Proof.
  induction a as [|[| |cb ctx texts] a IH]; cbn [app done_flags];
    [reflexivity | assumption | assumption | now rewrite IH].
Qed.

Lemma chunks_app (a b : list Event) :
  chunks (a ++ b) = chunks a ++ chunks b.
Proof.
  induction a as [|[| |cb ctx [texts|]] a IH]; cbn [app chunks];
    try assumption; [reflexivity|].
  now rewrite IH, app_assoc.
Qed.

Lemma deliveries_app (a b : list Event) :
  deliveries (a ++ b) = (deliveries a + deliveries b)%nat.
Proof.
  induction a as [|[| |cb ctx texts] a IH]; cbn [app deliveries];
    [reflexivity | assumption | assumption | now rewrite IH].
Qed.

Lemma concat_app (a b : list string) :
  Str.concat (a ++ b) = Str.concat a +:+ Str.concat b.
Proof.
  induction a as [|x a IH]; cbn [app Str.concat]; [reflexivity|].
  now rewrite IH, append_assoc.
Qed.

End TraceFacts.

(** ** Whole runs of the decode loop *)

Section GenerationFacts.

Context {L : Type}.
Implicit Types (e : Engine L) (s : Session) (w : World L).

(** The events of one activation that recurses: a request and a
    delivery. *)
Lemma next_token_body_trace e s w s' w' :
  next_token_body e s w = Returns (Again, s', w') ->
  exists (ready : string) ctx,
    trace w' = trace w ++
      [CallGetNextToken;
       CallCallback (cpu_callback s') ctx (Some [c_str ready])] /\
    Response.response_count ctx = 1 /\
    done ctx = early_stop s' /\
    final_output s' = final_output s +:+ ready /\
    (has_nul (last_10_char s) = false ->
     (forall id, has_nul (piece e id) = false) ->
     has_nul ready = false /\ has_nul (last_10_char s') = false).
Proof.
  intros Hbody.
  apply next_token_body_Again in Hbody
    as (Hlt & Hes & id & ids & l & Hget & Hs' & Hw').
  cbn zeta in Hs', Hw'.
  set (s0 := set_response_count (to_int (response_count s + 1)) s) in *.
  exists (absorb_token e (piece e id) s0).1.
  destruct (call_cpu_callback_trace s' (absorb_token e (piece e id) s0).1
              (log_event CallGetNextToken
                 {| llm_state := l; heap := heap w; trace := trace w |}))
    as (ctx & Htr & Hcount & Hdone & _).
  exists ctx. rewrite <- Hw' in Htr.
  split.
  { rewrite Htr. cbn [trace log_event]. now rewrite <- app_assoc. }
  split; [assumption|]. split; [assumption|].
  destruct (absorb_token_frame e (piece e id) s0) as (_ & Hfo).
  rewrite <- Hs' in Hfo. split; [exact Hfo|].
  intros Hbuf Hpieces. rewrite Hs'.
  now apply absorb_token_no_nul.
Qed.

(** A run only appends to the trace, makes at most
    [max_num_output_tokens - response_count] requests, and, when the
    counter cannot overflow, leaves [response_count] raised by the
    number of requests plus one, for the activation that returned. *)
Lemma generation_bound e (fuel : nat) s w s' w' :
  next_token_fuel fuel e s w = Returns (s', w') ->
  INT_MIN <= response_count s ->
  max_num_output_tokens s <= INT_MAX ->
  exists evs,
    trace w' = trace w ++ evs /\
    max_num_output_tokens s' = max_num_output_tokens s /\
    requests evs
    <= Z.max 0 (max_num_output_tokens s - response_count s) /\
    (response_count s < INT_MAX ->
     max_num_output_tokens s < INT_MAX ->
     response_count s' = response_count s + requests evs + 1).
Proof.
  revert fuel s w s' w'. apply (next_token_fuel_ind e
    (fun s w s' w' =>
       INT_MIN <= response_count s ->
       max_num_output_tokens s <= INT_MAX ->
       exists evs,
         trace w' = trace w ++ evs /\
         max_num_output_tokens s' = max_num_output_tokens s /\
         requests evs
         <= Z.max 0 (max_num_output_tokens s - response_count s) /\
         (response_count s < INT_MAX ->
          max_num_output_tokens s < INT_MAX ->
          response_count s' = response_count s + requests evs + 1))).
  - intros s w s' w' Hb Hlow Hmax.
    apply next_token_body_Stop in Hb as (-> & -> & _).
    exists []. rewrite app_nil_r. change (requests []) with 0.
    repeat split; [lia|].
    intros Hc _. cbn [response_count set_response_count].
    rewrite to_int_id by (unfold in_int; lia). lia.
  - intros s w s1 w1 s' w' Hb IH Hlow Hmax.
    destruct (next_token_body_frame _ _ _ _ _ _ Hb) as (_ & Hm & _ & Hc).
    destruct (next_token_body_trace _ _ _ _ _ Hb)
      as (ready & ctx & Htr & _).
    apply next_token_body_Again in Hb as (Hlt & _).
    rewrite to_int_id in Hc by (unfold in_int; lia).
    destruct IH as (evs & Htr' & Hm' & Hreq & Hcount);
      [lia | lia |].
    eexists. split; [rewrite Htr', Htr, <- app_assoc; reflexivity|].
    split; [congruence|].
    rewrite requests_app. change (requests [_; _]) with 1.
    rewrite Hm, Hc in Hreq. split; [lia|].
    intros Hc1 Hm1. rewrite Hcount; lia.
Qed.

(** With no stop sequence configured, a run started below the ceiling
    makes exactly [max_num_output_tokens - response_count] requests and
    as many deliveries, the last one with [done] and no other. *)
Lemma generation_exact e (fuel : nat) s w s' w' :
  stop_tokens e = [] ->
  next_token_fuel fuel e s w = Returns (s', w') ->
  INT_MIN <= response_count s ->
  max_num_output_tokens s <= INT_MAX ->
  exists evs,
    trace w' = trace w ++ evs /\
    (early_stop s = true \/ max_num_output_tokens s <= response_count s ->
     evs = []) /\
    (early_stop s = false ->
     response_count s < max_num_output_tokens s ->
     requests evs = max_num_output_tokens s - response_count s /\
     done_flags evs
     = repeat false
         (Z.to_nat (max_num_output_tokens s - response_count s - 1))
       ++ [true]).
Proof.
  intros Hstop. revert fuel s w s' w'. apply (next_token_fuel_ind e
    (fun s w s' w' =>
       INT_MIN <= response_count s ->
       max_num_output_tokens s <= INT_MAX ->
       exists evs,
         trace w' = trace w ++ evs /\
         (early_stop s = true \/
          max_num_output_tokens s <= response_count s -> evs = []) /\
         (early_stop s = false ->
          response_count s < max_num_output_tokens s ->
          requests evs = max_num_output_tokens s - response_count s /\
          done_flags evs
          = repeat false
              (Z.to_nat (max_num_output_tokens s - response_count s - 1))
            ++ [true]))).
  - intros s w s' w' Hb Hlow Hmax.
    apply next_token_body_Stop in Hb as (-> & -> & Hwhy).
    exists []. rewrite app_nil_r. repeat split; try reflexivity;
      destruct Hwhy; (congruence || lia).
  - intros s w s1 w1 s' w' Hb IH Hlow Hmax.
    destruct (next_token_body_frame _ _ _ _ _ _ Hb) as (_ & Hm & _ & Hc).
    destruct (next_token_body_trace _ _ _ _ _ Hb)
      as (ready & ctx & Htr & _ & Hdone & _).
    pose proof Hb as Hb'.
    apply next_token_body_Again in Hb'
      as (Hlt & Hes & id & ids & l & _ & Hs1 & _).
    cbn zeta in Hs1.
    rewrite to_int_id in Hc, Hs1 by (unfold in_int; lia).
    assert (Hes1 : early_stop s1
                   = (response_count s + 1 =? max_num_output_tokens s)).
    { rewrite Hs1, absorb_token_eq, Hstop.
      cbn [stop_token_loop fst snd early_stop set_final_output].
      match goal with
      | |- early_stop (take_ready_char ?x).2 = _ =>
          destruct (take_ready_char_frame x) as (_ & _ & ->)
      end.
      cbn [early_stop set_last_10_char response_count
           max_num_output_tokens set_response_count].
      destruct (_ =? _); [reflexivity|].
      cbn [early_stop set_response_count]. exact Hes. }
    destruct IH as (evs & Htr' & Hnone & Hsome); [lia | lia |].
    eexists. split; [rewrite Htr', Htr, <- app_assoc; reflexivity|].
    split; [intros [?|?]; (congruence || lia)|].
    intros _ _. rewrite requests_app, done_flags_app.
    change (requests [_; _]) with 1.
    cbn [done_flags]. rewrite Hdone, Hes1, Hm, Hc in *.
    destruct (Z.eqb_spec (response_count s + 1) (max_num_output_tokens s))
      as [Heq|Hne].
    + rewrite Hnone by now left.
      replace (max_num_output_tokens s - response_count s - 1) with 0 by lia.
      change (requests []) with 0. split; [lia | reflexivity].
    + destruct Hsome as [Hreq Hflags]; [reflexivity | lia |].
      rewrite Hreq, Hflags. split; [lia|].
      replace (Z.to_nat (max_num_output_tokens s - response_count s - 1))
        with (S (Z.to_nat (max_num_output_tokens s
                           - (response_count s + 1) - 1))) by lia.
      reflexivity.
Qed.

(** Without NUL characters in the token texts, the texts the callback
    reads are the ready texts themselves, and [final_output] collects
    them. *)
Lemma generation_chunks e (fuel : nat) s w s' w' :
  (forall id, has_nul (piece e id) = false) ->
  next_token_fuel fuel e s w = Returns (s', w') ->
  has_nul (last_10_char s) = false ->
  has_nul (final_output s) = false ->
  exists evs,
    trace w' = trace w ++ evs /\
    final_output s' = final_output s +:+ Str.concat (chunks evs) /\
    has_nul (final_output s') = false.
Proof.
  intros Hpieces. revert fuel s w s' w'. apply (next_token_fuel_ind e
    (fun s w s' w' =>
       has_nul (last_10_char s) = false ->
       has_nul (final_output s) = false ->
       exists evs,
         trace w' = trace w ++ evs /\
         final_output s' = final_output s +:+ Str.concat (chunks evs) /\
         has_nul (final_output s') = false)).
  - intros s w s' w' Hb Hbuf Hout.
    apply next_token_body_Stop in Hb as (-> & -> & _).
    exists []. rewrite app_nil_r. split; [reflexivity|].
    cbn [chunks Str.concat final_output set_response_count].
    now rewrite append_empty_r.
  - intros s w s1 w1 s' w' Hb IH Hbuf Hout.
    destruct (next_token_body_trace _ _ _ _ _ Hb)
      as (ready & ctx & Htr & _ & _ & Hfo & Hnul).
    destruct (Hnul Hbuf Hpieces) as [Hready Hbuf1].
    destruct (IH Hbuf1) as (evs & Htr' & Hfo' & Hout').
    { now rewrite Hfo, has_nul_append, Hout, Hready. }
    eexists. split; [rewrite Htr', Htr, <- app_assoc; reflexivity|].
    split; [|assumption].
    rewrite chunks_app, concat_app. cbn [chunks Str.concat app].
    rewrite c_str_no_nul, append_empty_r by assumption.
    rewrite Hfo', Hfo. apply append_assoc.
Qed.

(** Nothing follows a delivery with [done] set, and a run entered with
    [early_stop] set does nothing. *)
Lemma generation_after_done e (fuel : nat) s w s' w' :
  next_token_fuel fuel e s w = Returns (s', w') ->
  exists evs,
    trace w' = trace w ++ evs /\
    (early_stop s = true -> evs = []) /\
    (forall before cb ctx texts after,
        evs = before ++ CallCallback cb ctx texts :: after ->
        done ctx = true -> after = []).
Proof.
  revert fuel s w s' w'. apply (next_token_fuel_ind e
    (fun s w s' w' =>
       exists evs,
         trace w' = trace w ++ evs /\
         (early_stop s = true -> evs = []) /\
         (forall before cb ctx texts after,
             evs = before ++ CallCallback cb ctx texts :: after ->
             done ctx = true -> after = []))).
  - intros s w s' w' Hb.
    apply next_token_body_Stop in Hb as (-> & -> & _).
    exists []. rewrite app_nil_r. repeat split.
    intros before cb ctx texts after Heq.
    now destruct before.
  - intros s w s1 w1 s' w' Hb (evs & Htr' & Hnone & Hlast).
    destruct (next_token_body_trace _ _ _ _ _ Hb)
      as (ready & ctx0 & Htr & _ & Hdone & _).
    apply next_token_body_Again in Hb as (_ & Hes & _).
    eexists. split; [rewrite Htr', Htr, <- app_assoc; reflexivity|].
    split; [congruence|].
    intros before cb ctx texts after Heq Hd.
    destruct before as [|x [|y before]]; cbn [app] in Heq.
    + discriminate.
    + inversion Heq; subst. apply Hnone. congruence.
    + inversion Heq; subst. now apply (Hlast before cb ctx texts after).
Qed.

(** At or above the ceiling an activation returns at once. *)
Lemma next_token_function_ceiling e s w :
  max_num_output_tokens s <= response_count s ->
  next_token_function e s w
  = Returns (set_response_count (to_int (response_count s + 1)) s, w).
Proof.
  intros Hge. unfold next_token_function. cbn [next_token_fuel].
  unfold next_token_body.
  cbn [max_num_output_tokens set_response_count].
  destruct (Z.ltb_spec (response_count s) (max_num_output_tokens s));
    [lia | reflexivity].
Qed.

(** A backend that always answers with at least one id lets every
    activation return. *)
Lemma next_token_body_returns e s w :
  (forall st, exists id ids st',
      GetNextToken (llm e) st = (OkStatus, id :: ids, st')) ->
  exists c s' w', next_token_body e s w = Returns (c, s', w').
Proof.
  intros Hllm. unfold next_token_body.
  destruct (_ <? _); [|eauto].
  destruct (early_stop _); [eauto|].
  destruct (Hllm (llm_state w)) as (id & ids & st' & ->). cbn [ok negb].
  destruct (absorb_token _ _ _). eauto.
Qed.

Lemma next_token_fuel_returns e (fuel : nat) s w :
  (forall st, exists id ids st',
      GetNextToken (llm e) st = (OkStatus, id :: ids, st')) ->
  next_token_fuel fuel e s w <> OutOfFuel ->
  exists s' w', next_token_fuel fuel e s w = Returns (s', w').
Proof.
  intros Hllm. revert s w.
  induction fuel as [|fuel IH]; intros s w Hfuel.
  - now contradict Hfuel.
  - cbn [next_token_fuel] in *.
    destruct (next_token_body_returns e s w Hllm) as (c & s1 & w1 & Hb).
    rewrite Hb in *. destruct c; [|eauto]. now apply IH.
Qed.

(** With such a backend the decode loop returns. *)
Lemma next_token_function_returns e s w :
  (forall st, exists id ids st',
      GetNextToken (llm e) st = (OkStatus, id :: ids, st')) ->
  max_num_output_tokens s <= INT_MAX ->
  exists s' w', next_token_function e s w = Returns (s', w').
Proof.
  intros Hllm Hmax. apply next_token_fuel_returns; [assumption|].
  now apply next_token_function_total.
Qed.

End GenerationFacts.

(** ** The callback does not steer generation *)

Section CallbackFacts.

Context {L : Type}.
Implicit Types (e : Engine L) (s : Session) (w : World L).

Lemma stop_token_loop_callback (cb : CCallback) (tokens : list string) s :
  stop_token_loop tokens (set_cpu_callback cb s)
  = set_cpu_callback cb (stop_token_loop tokens s).
Proof.
  revert s. induction tokens as [|t tokens IH]; intros s;
    cbn [stop_token_loop]; [reflexivity|].
  cbn [last_10_char set_cpu_callback].
  destruct (negb _); [reflexivity | apply IH].
Qed.

Lemma take_ready_char_callback (cb : CCallback) s :
  take_ready_char (set_cpu_callback cb s)
  = ((take_ready_char s).1, set_cpu_callback cb (take_ready_char s).2).
Proof.
  unfold take_ready_char. cbn [early_stop last_10_char set_cpu_callback].
  destruct (early_stop s); [reflexivity|].
  destruct (_ >? _); reflexivity.
Qed.

Lemma absorb_token_callback (cb : CCallback) e (token : string) s :
  absorb_token e token (set_cpu_callback cb s)
  = ((absorb_token e token s).1,
     set_cpu_callback cb (absorb_token e token s).2).
Proof.
  rewrite !absorb_token_eq. cbn [fst snd].
  cbn [response_count max_num_output_tokens set_cpu_callback].
  assert (Hflag : (if response_count s =? max_num_output_tokens s
                   then set_early_stop true (set_cpu_callback cb s)
                   else set_cpu_callback cb s)
                  = set_cpu_callback cb
                      (if response_count s =? max_num_output_tokens s
                       then set_early_stop true s else s)).
  { now destruct (_ =? _). }
  fold (set_cpu_callback cb s). rewrite Hflag.
  set (s1 := if _ =? _ then _ else s).
  change (set_last_10_char (last_10_char (set_cpu_callback cb s1) +:+ token)
            (set_cpu_callback cb s1))
    with (set_cpu_callback cb
            (set_last_10_char (last_10_char s1 +:+ token) s1)).
  rewrite stop_token_loop_callback, take_ready_char_callback.
  reflexivity.
Qed.

Lemma next_token_body_callback (cb : CCallback) e s w w2 c s' w' :
  llm_state w2 = llm_state w ->
  next_token_body e s w = Returns (c, s', w') ->
  exists w2',
    next_token_body e (set_cpu_callback cb s) w2
    = Returns (c, set_cpu_callback cb s', w2') /\
    llm_state w2' = llm_state w'.
Proof.
  intros Hllm Hb. destruct c.
  - apply next_token_body_Again in Hb
      as (Hlt & Hes & id & ids & l & Hget & Hs' & Hw').
    cbn zeta in Hs', Hw'. unfold next_token_body.
    cbn [response_count max_num_output_tokens early_stop
         set_cpu_callback set_response_count].
    apply Z.ltb_lt in Hlt. rewrite Hlt, Hes, Hllm, Hget. cbn [ok negb].
    fold (set_cpu_callback cb s).
    change (set_response_count (to_int (response_count s + 1))
              (set_cpu_callback cb s))
      with (set_cpu_callback cb
              (set_response_count (to_int (response_count s + 1)) s)).
    rewrite absorb_token_callback, <- Hs'.
    eexists. split; [reflexivity|].
    destruct (call_cpu_callback_trace (set_cpu_callback cb s')
                (absorb_token e (piece e id)
                   (set_response_count (to_int (response_count s + 1)) s)).1
                (log_event CallGetNextToken
                   {| llm_state := l; heap := heap w2; trace := trace w2 |}))
      as (ctx & _ & _ & _ & ->).
    rewrite Hw'.
    destruct (call_cpu_callback_trace s'
                (absorb_token e (piece e id)
                   (set_response_count (to_int (response_count s + 1)) s)).1
                (log_event CallGetNextToken
                   {| llm_state := l; heap := heap w; trace := trace w |}))
      as (ctx' & _ & _ & _ & ->).
    reflexivity.
  - apply next_token_body_Stop in Hb as (-> & -> & Hwhy).
    exists w2. split; [|assumption]. unfold next_token_body.
    cbn [response_count max_num_output_tokens early_stop
         set_cpu_callback set_response_count].
    destruct (response_count s <? max_num_output_tokens s) eqn:Hlt;
      [|reflexivity].
    destruct Hwhy as [Hge| ->]; [|reflexivity].
    apply Z.ltb_lt in Hlt. lia.
Qed.

(** A run under another callback takes the same course: it returns the
    same session, the callback field apart. *)
Lemma next_token_fuel_callback (cb : CCallback) e (fuel : nat) s w w2 s' w' :
  llm_state w2 = llm_state w ->
  next_token_fuel fuel e s w = Returns (s', w') ->
  exists w2',
    next_token_fuel fuel e (set_cpu_callback cb s) w2
    = Returns (set_cpu_callback cb s', w2') /\
    llm_state w2' = llm_state w'.
Proof.
  revert s w w2. induction fuel as [|fuel IH]; intros s w w2 Hllm H.
  - discriminate.
  - cbn [next_token_fuel] in *.
    destruct (next_token_body e s w) as [[[c s1] w1]| | |] eqn:Hb;
      try discriminate.
    destruct (next_token_body_callback cb _ _ _ _ _ _ _ Hllm Hb)
      as (w3 & -> & Hllm3).
    destruct c.
    + now apply (IH s1 w1 w3).
    + injection H as <- <-. now exists w3.
Qed.

End CallbackFacts.

(** ** The worker and the entry points *)

Section ApiFacts.

Context {L : Type}.
Implicit Types (e : Engine L) (s : Session) (w : World L).

(** When the prompt is encoded and the backend accepts it, the worker
    is the decode loop under the computed ceiling. *)
Lemma start_llm_function_ok e s w (ids : list Z) (l : L) :
  Encode (tokenizer e) (prompt s) = (OkStatus, ids) ->
  InitInputTokens (llm e) (start_token_id e :: ids) (llm_state w)
  = (OkStatus, l) ->
  start_llm_function e s w
  = next_token_function e
      (set_max_num_output_tokens
         (output_ceiling e (start_token_id e :: ids)) s)
      (log_event (CallInitInputTokens (start_token_id e :: ids))
         {| llm_state := l; heap := heap w; trace := trace w |}).
Proof.
  intros He Hi. unfold start_llm_function. rewrite He. cbn [ok negb].
  rewrite Hi. reflexivity.
Qed.

Lemma start_llm_function_Returns e s w s' w' :
  start_llm_function e s w = Returns (s', w') ->
  exists (ids : list Z) (l : L),
    Encode (tokenizer e) (prompt s) = (OkStatus, ids) /\
    InitInputTokens (llm e) (start_token_id e :: ids) (llm_state w)
    = (OkStatus, l) /\
    next_token_function e
      (set_max_num_output_tokens
         (output_ceiling e (start_token_id e :: ids)) s)
      (log_event (CallInitInputTokens (start_token_id e :: ids))
         {| llm_state := l; heap := heap w; trace := trace w |})
    = Returns (s', w').
Proof.
  unfold start_llm_function.
  destruct (Encode (tokenizer e) (prompt s)) as [[|text] ids] eqn:He;
    cbn [ok negb]; [|discriminate].
  destruct (InitInputTokens (llm e) (start_token_id e :: ids) (llm_state w))
    as [[|text] l] eqn:Hi; cbn [ok negb]; [|discriminate].
  intros H. exists ids, l. split; [reflexivity|]. split; assumption.
Qed.

(** The ceiling is an [int], whatever the budget and the prompt. *)
Lemma output_ceiling_int e (prompt_ids : list Z) :
  in_int (output_ceiling e prompt_ids).
Proof. apply to_int_range. Qed.

(** Within the [int] range the ceiling is the budget less the length of
    [prompt_ids]. *)
Lemma output_ceiling_exact e (prompt_ids : list Z) :
  in_int (max_num_tokens e - Z.of_nat (length prompt_ids)) ->
  output_ceiling e prompt_ids
  = max_num_tokens e - Z.of_nat (length prompt_ids).
Proof.
  intros H. unfold output_ceiling. rewrite to_int_to_size_t.
  now apply to_int_id.
Qed.

(** The worker never runs out of the fuel of the model. *)
Lemma PredictAsync_total e (cb : CCallback) (input : string) s w :
  PredictAsync e cb input s w <> OutOfFuel.
Proof.
  unfold PredictAsync, start_llm_function.
  destruct (Encode _ _) as [status ids].
  destruct (negb (ok status)); [discriminate|].
  destruct (InitInputTokens _ _ _) as [status' l].
  destruct (negb (ok status')); [discriminate|].
  apply next_token_function_total.
  cbn [max_num_output_tokens set_max_num_output_tokens].
  apply output_ceiling_int.
Qed.

(** Another callback gives the same final session, the callback field
    apart. *)
Lemma PredictAsync_callback (cb cb2 : CCallback) e (input : string)
    s w s' w' :
  PredictAsync e cb input s w = Returns (s', w') ->
  exists w2',
    PredictAsync e cb2 input s w = Returns (set_cpu_callback cb2 s', w2').
Proof.
  unfold PredictAsync. intros H.
  apply start_llm_function_Returns in H as (ids & l & He & Hi & Hrun).
  cbn [prompt reset_request] in He.
  rewrite (start_llm_function_ok e _ w ids l) by assumption.
  unfold next_token_function in *.
  cbn [max_num_output_tokens response_count set_max_num_output_tokens
       reset_request] in *.
  eapply (next_token_fuel_callback cb2) in Hrun as (w2' & Hrun & _);
    [|reflexivity].
  exists w2'. exact Hrun.
Qed.

End ApiFacts.

(** * The claims about generation *)

Section Claims.

Context {L : Type}.
Implicit Types (e : Engine L) (s : Session) (w : World L).

(** C2, as the code has it: a prompt whose computed output ceiling is
    not positive raises no error.  On a session whose counter is not
    negative, predict still hands the start token and the prompt's ids
    to the backend, then asks for no token and never calls the callback;
    synchronous predict returns one empty entry with [done] set. *)
Theorem prompt_over_budget_generates_nothing e (cb : CCallback)
    (input : string) s w (ids : list Z) (l : L) :
  Encode (tokenizer e) input = (OkStatus, ids) ->
  InitInputTokens (llm e) (start_token_id e :: ids) (llm_state w)
  = (OkStatus, l) ->
  output_ceiling e (start_token_id e :: ids) <= 0 ->
  0 <= response_count s ->
  (exists s' w',
      PredictAsync e cb input s w = Returns (s', w') /\
      trace w' = trace w ++ [CallInitInputTokens (start_token_id e :: ids)] /\
      llm_state w' = l /\
      final_output s' = EmptyString) /\
  (exists ctx s' w',
      PredictSync e input s w = Returns (ctx, s', w') /\
      Response.response_count ctx = 1 /\
      done ctx = true /\
      read_response ctx (heap w') = Some [EmptyString]).
Proof.
  intros He Hi Hceil Hcount.
  assert (Hrun : forall cb',
    PredictAsync e cb' input s w
    = Returns
        (set_response_count (to_int (response_count s + 1))
           (set_max_num_output_tokens
              (output_ceiling e (start_token_id e :: ids))
              (reset_request cb' input s)),
         log_event (CallInitInputTokens (start_token_id e :: ids))
           {| llm_state := l; heap := heap w; trace := trace w |})).
  { intros cb'. unfold PredictAsync.
    rewrite (start_llm_function_ok e _ w ids l) by assumption.
    rewrite next_token_function_ceiling; [reflexivity|].
    cbn [max_num_output_tokens response_count set_max_num_output_tokens
         reset_request]. lia. }
  split.
  - eexists _, _. split; [apply Hrun|]. now repeat split.
  - unfold PredictSync. rewrite Hrun.
    destruct (alloc_result _ _) as [a h'] eqn:Ha.
    eexists _, _, _. split; [reflexivity|]. repeat split.
    cbn [heap]. apply (read_alloc_result _ _ _ _ _ Ha).
Qed.

(** C3: on a fresh session ([response_count] 0) of an engine without
    stop sequences, let [prompt_ids] be the encoded prompt as the
    backend receives it, the start token followed by the ids of
    [Encode].  When [prompt_ids] is shorter than the token budget, and
    the budget is an [int], a generation that completes makes exactly
    budget minus length of [prompt_ids] requests to the backend, and of
    the deliveries to the callback exactly the last has [done] set. *)
Theorem token_budget_termination e (cb : CCallback) (input : string)
    s w s' w' (ids : list Z) :
  stop_tokens e = [] ->
  response_count s = 0 ->
  Encode (tokenizer e) input = (OkStatus, ids) ->
  Z.of_nat (length (start_token_id e :: ids)) < max_num_tokens e ->
  max_num_tokens e <= INT_MAX ->
  PredictAsync e cb input s w = Returns (s', w') ->
  exists evs,
    trace w' = trace w ++ CallInitInputTokens (start_token_id e :: ids) :: evs /\
    requests evs
    = max_num_tokens e - Z.of_nat (length (start_token_id e :: ids)) /\
    done_flags evs
    = repeat false
        (Z.to_nat (max_num_tokens e
                   - Z.of_nat (length (start_token_id e :: ids)) - 1))
      ++ [true].
Proof.
  intros Hstop Hfresh He Hlen Hmax Hrun. unfold PredictAsync in Hrun.
  apply start_llm_function_Returns in Hrun as (ids' & l & He' & _ & Hrun).
  cbn [prompt reset_request] in He'. rewrite He in He'.
  injection He' as <-.
  unfold next_token_function in Hrun.
  apply (generation_exact e _ _ _ _ _ Hstop) in Hrun
    as (evs & Htr & _ & Hexact);
    cbn [max_num_output_tokens response_count early_stop trace
         set_max_num_output_tokens reset_request log_event] in *.
  - rewrite output_ceiling_exact in Hexact
      by (unfold in_int, INT_MIN, INT_MAX in *; lia).
    rewrite Hfresh, Z.sub_0_r in Hexact.
    destruct Hexact as [Hreq Hflags]; [reflexivity | lia |].
    exists evs. rewrite Htr, <- app_assoc. now repeat split.
  - rewrite Hfresh. unfold INT_MIN. lia.
  - apply output_ceiling_int.
Qed.

(** C4: when the token texts hold no NUL character (the entries of a
    response context are C strings), and asynchronous predict completes
    from a session and a world, synchronous predict from the same
    session and world returns a context whose single text is the
    concatenation, in order, of the chunks delivered to the callback. *)
Theorem async_chunks_make_sync_text e (cb : CCallback) (input : string)
    s w s' w' :
  (forall id, has_nul (piece e id) = false) ->
  PredictAsync e cb input s w = Returns (s', w') ->
  exists evs ctx s2 w2,
    trace w' = trace w ++ evs /\
    PredictSync e input s w = Returns (ctx, s2, w2) /\
    read_response ctx (heap w2) = Some [Str.concat (chunks evs)].
Proof.
  intros Hpieces Hrun.
  destruct (PredictAsync_callback cb Discard e input s w s' w' Hrun)
    as (w2' & Hsync).
  unfold PredictAsync in Hrun.
  apply start_llm_function_Returns in Hrun as (ids & l & _ & _ & Hrun).
  unfold next_token_function in Hrun.
  apply (generation_chunks e _ _ _ _ _ Hpieces) in Hrun
    as (evs & Htr & Hout & Hnul); [|reflexivity..].
  cbn [final_output trace set_max_num_output_tokens reset_request
       log_event] in *.
  rewrite append_nil in Hout.
  unfold PredictSync. rewrite Hsync.
  destruct (alloc_result _ _) as [a h'] eqn:Ha.
  eexists _, _, _, _. split; [rewrite Htr, <- app_assoc; reflexivity|].
  split; [reflexivity|]. cbn [heap].
  rewrite (read_alloc_result _ _ _ _ _ Ha).
  cbn [final_output set_cpu_callback chunks app].
  now rewrite c_str_no_nul, Hout.
Qed.

(** C7: whatever the prompt and however many chunks the worker
    delivered, the context that synchronous predict returns has
    [response_count] 1 and [done] set; its one entry is the accumulated
    [final_output], copied as a C string, hence all of it when it holds
    no NUL character; and the context owns its two blocks. *)
Theorem PredictSync_single_entry e (input : string) s w ctx s' w' :
  PredictSync e input s w = Returns (ctx, s', w') ->
  Response.response_count ctx = 1 /\
  done ctx = true /\
  read_response ctx (heap w') = Some [c_str (final_output s')] /\
  (has_nul (final_output s') = false ->
   read_response ctx (heap w') = Some [final_output s']) /\
  (exists a p, owns ctx (heap w') a [p]).
Proof.
  unfold PredictSync.
  destruct (PredictAsync e Discard input s w) as [[s1 w1]| | |];
    try discriminate.
  destruct (alloc_result _ _) as [a h'] eqn:Ha.
  intros [= <- <- <-]. cbn [heap Response.response_count done].
  pose proof (read_alloc_result _ _ _ _ true Ha) as Hread.
  repeat split; try assumption.
  - intros Hnul. now rewrite Hread, c_str_no_nul.
  - destruct (alloc_result_owns _ _ _ _ true Ha) as [p Hp]. eauto.
Qed.

(** C8: [SizeInTokens] returns the number of ids that [Encode] gives
    when it succeeds (a number that fits the returned [int]) and no
    message; when [Encode] fails it returns -1 and stores the text of
    the status as the message. *)
Theorem SizeInTokens_counts e (input : string) :
  (forall ids,
      Encode (tokenizer e) input = (OkStatus, ids) ->
      Z.of_nat (length ids) <= INT_MAX ->
      SizeInTokens e input = (Z.of_nat (length ids), None)) /\
  (forall text ids,
      Encode (tokenizer e) input = (ErrorStatus text, ids) ->
      SizeInTokens e input = (-1, Some (c_str text))).
Proof.
  unfold SizeInTokens. split.
  - intros ids -> Hlen. cbn [ok negb].
    rewrite to_int_id by (unfold in_int, INT_MIN; lia). reflexivity.
  - intros text ids ->. reflexivity.
Qed.


End Claims.

(** * Concrete runs *)

Section Runs.

Import Script.

(** C6: once [early_stop] is set, [next_token_function] returns with the
    world as it found it, so no [GetNextToken] request is made; in a run
    that returns, nothing follows the delivery that carries [done]; and
    with the stop sequence "</s>" and the tokens "Hi", "</", "s>",
    "extra", synchronous predict returns the text "Hi" after three
    requests, the id of "extra" still waiting in the backend. *)
Theorem early_stop_ends_generation :
  (forall (L : Type) (e : Engine L) (s : Session) (w : World L),
      early_stop s = true ->
      next_token_function e s w
      = Returns (set_response_count (to_int (response_count s + 1)) s, w)) /\
  (forall (L : Type) (e : Engine L) (fuel : nat) (s : Session) (w : World L)
          (s' : Session) (w' : World L),
      next_token_fuel fuel e s w = Returns (s', w') ->
      exists evs,
        trace w' = trace w ++ evs /\
        forall before cb ctx texts after,
          evs = before ++ CallCallback cb ctx texts :: after ->
          done ctx = true -> after = []) /\
  (exists ctx s' w',
      PredictSync hi_engine "abc" fresh_session (world [0; 1; 2; 3])
      = Returns (ctx, s', w') /\
      final_output s' = "Hi" /\
      read_response ctx (heap w') = Some ["Hi"] /\
      requests (trace w') = 3 /\
      llm_state w' = [3]).
Proof.
  split; [|split].
  - intros L e s w Hes. now apply next_token_function_early_stop.
  - intros L e fuel s w s' w' Hrun.
    destruct (generation_after_done e fuel s w s' w' Hrun)
      as (evs & Htr & _ & Hlast).
    now exists evs.
  - eexists _, _, _. split; [vm_compute; reflexivity|].
    now vm_compute.
Qed.

(** The stopped session of the run above: another call of
    [next_token_function] changes the counter alone. *)
Lemma early_stop_ends_generation_witness :
  next_token_function hi_engine stopped_session (world [3])
  = Returns (set_response_count
               (to_int (response_count stopped_session + 1))
               stopped_session, world [3]).
Proof.
  apply (proj1 early_stop_ends_generation). reflexivity.
Defined.

(** C2 fails as stated: with a budget of 3 tokens and the prompt
    "hello" (six ids with the start token, a ceiling of -3), predict
    does not fail; it initialises the backend with the six ids and
    returns normally, an empty text with [done] set. *)
Lemma prompt_over_budget_not_rejected :
  output_ceiling small_engine (1 :: char_ids "hello") = -3 /\
  (forall message,
      PredictAsync small_engine (Deliver 0) "hello" fresh_session (world [0])
      <> Fatal message) /\
  (exists s' w',
      PredictAsync small_engine (Deliver 0) "hello" fresh_session (world [0])
      = Returns (s', w') /\
      trace w' = [CallInitInputTokens [1; 104; 101; 108; 108; 111]]) /\
  (exists ctx s' w',
      PredictSync small_engine "hello" fresh_session (world [0])
      = Returns (ctx, s', w') /\
      done ctx = true /\
      read_response ctx (heap w') = Some [EmptyString]).
Proof.
  split; [reflexivity|]. split; [|split].
  - intros message. vm_compute. discriminate.
  - eexists _, _. split; vm_compute; reflexivity.
  - eexists _, _, _. split; [vm_compute; reflexivity|]. now vm_compute.
Qed.

Lemma prompt_over_budget_generates_nothing_witness :
  (exists s' w',
      PredictAsync small_engine (Deliver 0) "hello" fresh_session (world [0])
      = Returns (s', w') /\
      trace w'
      = trace (world [0]) ++
        [CallInitInputTokens (start_token_id small_engine :: char_ids "hello")] /\
      llm_state w' = [0] /\
      final_output s' = EmptyString) /\
  (exists ctx s' w',
      PredictSync small_engine "hello" fresh_session (world [0])
      = Returns (ctx, s', w') /\
      Response.response_count ctx = 1 /\
      done ctx = true /\
      read_response ctx (heap w') = Some [EmptyString]).
Proof.
  apply (prompt_over_budget_generates_nothing small_engine (Deliver 0)
           "hello" fresh_session (world [0]) (char_ids "hello") [0]).
  - reflexivity.
  - reflexivity.
  - vm_compute. discriminate.
  - vm_compute. discriminate.
Defined.

(** A budget of 7, a prompt of three characters: three requests, and
    [done] on the third delivery only. *)
Lemma token_budget_termination_witness :
  exists evs,
    trace greeting_async.2
    = trace (world [0; 1; 2]) ++
      CallInitInputTokens (start_token_id greeting_engine :: char_ids "abc")
      :: evs /\
    requests evs
    = max_num_tokens greeting_engine
      - Z.of_nat (length (start_token_id greeting_engine :: char_ids "abc")) /\
    done_flags evs
    = repeat false
        (Z.to_nat
           (max_num_tokens greeting_engine
            - Z.of_nat (length (start_token_id greeting_engine
                                :: char_ids "abc")) - 1))
      ++ [true].
Proof.
  apply (token_budget_termination greeting_engine (Deliver 0) "abc"
           fresh_session (world [0; 1; 2])
           greeting_async.1 greeting_async.2 (char_ids "abc")).
  - reflexivity.
  - reflexivity.
  - reflexivity.
  - vm_compute. reflexivity.
  - vm_compute. discriminate.
  - vm_compute. reflexivity.
Defined.

(** The chunks "", "Hello, " and "wonderful world" against the one text
    of synchronous predict. *)
Lemma async_chunks_make_sync_text_witness :
  exists evs ctx s2 w2,
    trace greeting_async.2 = trace (world [0; 1; 2]) ++ evs /\
    PredictSync greeting_engine "abc" fresh_session (world [0; 1; 2])
    = Returns (ctx, s2, w2) /\
    read_response ctx (heap w2) = Some [Str.concat (chunks evs)].
Proof.
  apply (async_chunks_make_sync_text greeting_engine (Deliver 0) "abc"
           fresh_session (world [0; 1; 2])
           greeting_async.1 greeting_async.2).
  - intros id.
    change (has_nul (nth (Z.to_nat id)
                       ["Hello, "; "wonderful "; "world"] EmptyString)
            = false).
    destruct (Z.to_nat id) as [|[|[|[|n]]]]; reflexivity.
  - vm_compute. reflexivity.
Defined.

(** The second activation on [greeting_engine]: seventeen characters in
    the buffer, seven flushed, ten kept. *)
Lemma lookahead_window_retained_witness :
  exists (token ready : string) ctx,
    trace greeting_step.2 = trace (world [1; 2]) ++
      [CallGetNextToken;
       CallCallback (cpu_callback greeting_step.1.2) ctx
         (Some [c_str ready])] /\
    done ctx = early_stop greeting_step.1.2 /\
    final_output greeting_step.1.2
    = final_output greeting_session +:+ ready /\
    (early_stop greeting_step.1.2 = false ->
       ready +:+ last_10_char greeting_step.1.2
       = last_10_char greeting_session +:+ token /\
       (ready <> EmptyString ->
          size (last_10_char greeting_step.1.2) = kCheckLastKChars) /\
       (ready = EmptyString ->
          last_10_char greeting_step.1.2
          = last_10_char greeting_session +:+ token /\
          size (last_10_char greeting_step.1.2) <= kCheckLastKChars)) /\
    (early_stop greeting_step.1.2 = true ->
     ready = last_10_char greeting_session +:+ token).
Proof.
  apply (lookahead_window_retained greeting_engine greeting_session
           (world [1; 2]) greeting_step.1.2 greeting_step.2).
  - reflexivity.
  - vm_compute. reflexivity.
Defined.

Lemma PredictSync_single_entry_witness :
  Response.response_count greeting_sync.1.1 = 1 /\
  done greeting_sync.1.1 = true /\
  read_response greeting_sync.1.1 (heap greeting_sync.2)
  = Some [c_str (final_output greeting_sync.1.2)] /\
  (has_nul (final_output greeting_sync.1.2) = false ->
   read_response greeting_sync.1.1 (heap greeting_sync.2)
   = Some [final_output greeting_sync.1.2]) /\
  (exists a p, owns greeting_sync.1.1 (heap greeting_sync.2) a [p]).
Proof.
  apply (PredictSync_single_entry greeting_engine "abc" fresh_session
           (world [0; 1; 2])).
  vm_compute. reflexivity.
Defined.

(** Three ids for "abc"; a prompt with a NUL character is refused. *)
Lemma SizeInTokens_counts_witness :
  SizeInTokens greeting_engine "abc" = (3, None) /\
  SizeInTokens greeting_engine (String NUL EmptyString)
  = (-1, Some "invalid input").
Proof.
  split.
  - apply (proj1 (SizeInTokens_counts greeting_engine "abc") [97; 98; 99]).
    + reflexivity.
    + vm_compute. discriminate.
  - apply (proj2 (SizeInTokens_counts greeting_engine
                    (String NUL EmptyString)) "invalid input" []).
    reflexivity.
Defined.

Lemma CloseResponseContext_releases_witness :
  exists ctx' h',
    CloseResponseContext hi_context hi_heap = Some (ctx', h') /\
    Response.response_count ctx' = 0 /\
    response_array ctx' = None /\
    h' !! 1%positive = None /\
    (forall p, p ∈ [2%positive] -> h' !! p = None) /\
    (forall q, q <> 1%positive -> q ∉ [2%positive] ->
               h' !! q = hi_heap !! q).
Proof.
  apply (CloseResponseContext_releases hi_context hi_heap 1%positive
           [2%positive]).
  unfold owns. repeat split.
  - vm_compute. discriminate.
  - apply NoDup_singleton.
  - intros p Hp. apply list_elem_of_singleton in Hp as ->.
    exists "Hi". reflexivity.
Defined.


End Runs.


(** * Further properties of the code *)

(** ** Ownership of response contexts *)

Section OwnershipFacts.

Implicit Types (h : gmap addr block) (ctx : LlmResponseContext).

(** [alloc_result] adds its two blocks and touches no other. *)
Lemma alloc_result_grows (responses : string) h (a : addr)
    (h' : gmap addr block) :
  alloc_result responses h = (a, h') ->
  blocks h' = blocks h + 2 /\ h ⊆ h'.
Proof.
  destruct (alloc_result_blocks responses h) as (a0 & p & -> & Ha & Hp & Hne).
  intros [= <- <-].
  assert (Hp' : <[a0 := PtrBlock [Some p]]> h !! p = None)
    by now rewrite lookup_insert_ne.
  split.
  - unfold blocks. rewrite !map_size_insert_None by assumption. lia.
  - transitivity (<[a0 := PtrBlock [Some p]]> h); now apply insert_subseteq.
Qed.

(** Releasing the context that [alloc_result] built gives back the heap
    as it was before. *)
Lemma close_after_alloc (responses : string) h (a : addr)
    (h' : gmap addr block) (d : bool) :
  alloc_result responses h = (a, h') ->
  CloseResponseContext
    {| response_array := Some a; Response.response_count := 1; done := d |} h'
  = Some ({| response_array := None; Response.response_count := 0;
             done := d |}, h).
Proof.
  destruct (alloc_result_blocks responses h) as (a0 & p & -> & Ha & Hp & Hne).
  intros [= <- <-]. unfold CloseResponseContext.
  cbn [response_array Response.response_count done].
  change (Z.to_nat (to_size_t 1)) with 1%nat. cbn [free_entries].
  rewrite lookup_insert_ne, lookup_insert_eq by congruence.
  cbn [lookup list_lookup free]. rewrite lookup_insert_eq.
  rewrite lookup_delete_ne, lookup_insert_ne, lookup_insert_eq by congruence.
  do 2 f_equal. apply map_eq. intros q.
  destruct (decide (q = a0)) as [->|Hqa].
  { now rewrite lookup_delete_eq. }
  rewrite lookup_delete_ne by congruence.
  destruct (decide (q = p)) as [->|Hqp].
  { now rewrite lookup_delete_eq. }
  now rewrite lookup_delete_ne, !lookup_insert_ne by congruence.
Qed.

(** What [CloseResponseContext] returns on a context that owns its
    entries. *)
Lemma close_owned ctx h (a : addr) (entries : list addr) :
  owns ctx h a entries ->
  CloseResponseContext ctx h
  = Some ({| response_array := None; Response.response_count := 0;
             done := done ctx |},
          delete a (released h entries)).
Proof.
  intros (Harr & Ha & Hcount & Hmax & Hnd & Hchars).
  assert (Hna : a ∉ entries).
  { intros Hin. destruct (Hchars a Hin) as [text Ht]. congruence. }
  unfold CloseResponseContext.
  rewrite to_size_t_id by lia. rewrite Hcount, Nat2Z.id, Harr.
  rewrite (free_entries_released a (Some <$> entries) entries 0 h);
    try assumption.
  - cbn [free]. rewrite lookup_released.
    destruct (decide (a ∈ entries)); [contradiction|]. now rewrite Ha.
  - intros j p Hj. cbn [Nat.add]. now rewrite list_lookup_fmap, Hj.
  - intros p Hp. destruct (Hchars p Hp) as [text Ht]. eauto.
Qed.

(** X1: a second call of [CloseResponseContext] on the structure that the
    first call cleared does nothing: the count is 0, so the loop frees
    nothing, and the array pointer is null, which [free] ignores. *)
Theorem CloseResponseContext_again_is_noop ctx h ctx'
    (h' : gmap addr block) :
  CloseResponseContext ctx h = Some (ctx', h') ->
  CloseResponseContext ctx' h' = Some (ctx', h').
Proof.
  unfold CloseResponseContext at 1.
  destruct (free_entries _ _ _ _) as [h1|]; [|discriminate].
  destruct (free _ _) as [h2|]; [|discriminate].
  intros [= <- <-]. unfold CloseResponseContext.
  cbn [response_array Response.response_count done].
  change (Z.to_nat (to_size_t 0)) with 0%nat. reflexivity.
Qed.

(** X2: a copy of the context taken before the call still holds the old
    pointer and count; releasing through it after the original was
    released is undefined: its array, or the array itself when there are
    no entries, is no longer allocated. *)
Theorem CloseResponseContext_stale_copy_undefined ctx h (a : addr)
    (entries : list addr) ctx' (h' : gmap addr block) :
  owns ctx h a entries ->
  CloseResponseContext ctx h = Some (ctx', h') ->
  CloseResponseContext ctx h' = None.
Proof.
  intros Howns Hclose. rewrite (close_owned _ _ _ _ Howns) in Hclose.
  injection Hclose as _ <-.
  destruct Howns as (Harr & Ha & Hcount & Hmax & Hnd & Hchars).
  unfold CloseResponseContext.
  rewrite to_size_t_id by lia. rewrite Hcount, Nat2Z.id, Harr.
  destruct entries as [|p entries]; cbn [length free_entries].
  - cbn [free released foldl]. now rewrite lookup_delete_eq.
  - now rewrite lookup_delete_eq.
Qed.

End OwnershipFacts.

(** ** What a generation does to the heap and to the trace *)

Section GenerationExtras.

Context {L : Type}.
Implicit Types (e : Engine L) (s : Session) (w : World L).

Lemma requests_exchanges (cb : CCallback)
    (ds : list (LlmResponseContext * string)) :
  requests (exchanges cb ds) = Z.of_nat (length ds).
Proof.
  induction ds as [|d ds IH]; [reflexivity|].
  cbn [exchanges length]. rewrite requests_app, IH.
  change (requests (exchange cb d)) with 1. lia.
Qed.

Lemma deliveries_exchanges (cb : CCallback)
    (ds : list (LlmResponseContext * string)) :
  deliveries (exchanges cb ds) = length ds.
Proof.
  induction ds as [|d ds IH]; [reflexivity|].
  cbn [exchanges length]. rewrite deliveries_app, IH. reflexivity.
Qed.

(** The activation that recurses, with the context it delivers spelled
    out: the blocks of the context are the only change to the heap. *)
Lemma next_token_body_delivery e s w s' w' :
  next_token_body e s w = Returns (Again, s', w') ->
  exists (ready : string) (a : addr),
    alloc_result ready (heap w) = (a, heap w') /\
    trace w' = trace w ++
      exchange (cpu_callback s)
        ({| response_array := Some a;
            Response.response_count := 1;
            done := early_stop s' |}, c_str ready).
Proof.
  intros Hb.
  destruct (next_token_body_frame _ _ _ _ _ _ Hb) as (_ & _ & Hcb & _).
  apply next_token_body_Again in Hb
    as (_ & _ & id & ids & l & _ & Hs' & Hw').
  cbn zeta in Hs', Hw'.
  set (ready := (absorb_token e (piece e id)
                   (set_response_count (to_int (response_count s + 1)) s)).1)
    in *.
  unfold call_cpu_callback in Hw'. cbn [heap log_event trace] in Hw'.
  destruct (alloc_result ready (heap w)) as [a h'] eqn:Ha.
  rewrite (read_alloc_result _ _ _ _ _ Ha) in Hw'.
  exists ready, a. rewrite Hw'. cbn [heap trace]. split; [exact Ha|].
  rewrite Hcb, <- app_assoc. reflexivity.
Qed.

Lemma generation_heap e (fuel : nat) s w s' w' :
  next_token_fuel fuel e s w = Returns (s', w') ->
  exists evs,
    trace w' = trace w ++ evs /\
    blocks (heap w') = blocks (heap w) + 2 * requests evs /\
    heap w ⊆ heap w'.
Proof.
  revert fuel s w s' w'. apply (next_token_fuel_ind e
    (fun s w s' w' =>
       exists evs,
         trace w' = trace w ++ evs /\
         blocks (heap w') = blocks (heap w) + 2 * requests evs /\
         heap w ⊆ heap w')).
  - intros s w s' w' Hb.
    apply next_token_body_Stop in Hb as (-> & _ & _).
    exists []. rewrite app_nil_r. change (requests []) with 0.
    repeat split; [lia | reflexivity].
  - intros s w s1 w1 s' w' Hb (evs & Htr & Hblocks & Hsub).
    apply next_token_body_delivery in Hb as (ready & a & Ha & Htr1).
    apply alloc_result_grows in Ha as [Hgrow Hsub1].
    eexists. split; [rewrite Htr, Htr1, <- app_assoc; reflexivity|].
    rewrite requests_app. change (requests (exchange _ _)) with 1.
    split; [lia|]. now transitivity (heap w1).
Qed.

Lemma generation_exchanges e (fuel : nat) s w s' w' :
  next_token_fuel fuel e s w = Returns (s', w') ->
  exists ds,
    trace w' = trace w ++ exchanges (cpu_callback s) ds /\
    Forall (fun d => Response.response_count d.1 = 1 /\
                     response_array d.1 <> None) ds.
Proof.
  revert fuel s w s' w'. apply (next_token_fuel_ind e
    (fun s w s' w' =>
       exists ds,
         trace w' = trace w ++ exchanges (cpu_callback s) ds /\
         Forall (fun d => Response.response_count d.1 = 1 /\
                          response_array d.1 <> None) ds)).
  - intros s w s' w' Hb.
    apply next_token_body_Stop in Hb as (-> & _ & _).
    exists []. rewrite app_nil_r. now split.
  - intros s w s1 w1 s' w' Hb (ds & Htr & Hall).
    destruct (next_token_body_frame _ _ _ _ _ _ Hb) as (_ & _ & Hcb & _).
    apply next_token_body_delivery in Hb as (ready & a & _ & Htr1).
    eexists (_ :: ds). split.
    + rewrite Htr, Htr1, Hcb, <- app_assoc. reflexivity.
    + constructor; [|assumption]. now split.
Qed.

(** The [done] flags of a run: unset on every delivery but the last. *)
Lemma generation_done_pattern e (fuel : nat) s w s' w' :
  next_token_fuel fuel e s w = Returns (s', w') ->
  INT_MIN <= response_count s ->
  max_num_output_tokens s <= INT_MAX ->
  exists evs,
    trace w' = trace w ++ evs /\
    (early_stop s = true \/ max_num_output_tokens s <= response_count s ->
     evs = []) /\
    (early_stop s = false ->
     response_count s < max_num_output_tokens s ->
     exists n : nat,
       done_flags evs = repeat false n ++ [true] /\
       requests evs = Z.of_nat n + 1).
Proof.
  revert fuel s w s' w'. apply (next_token_fuel_ind e
    (fun s w s' w' =>
       INT_MIN <= response_count s ->
       max_num_output_tokens s <= INT_MAX ->
       exists evs,
         trace w' = trace w ++ evs /\
         (early_stop s = true \/
          max_num_output_tokens s <= response_count s -> evs = []) /\
         (early_stop s = false ->
          response_count s < max_num_output_tokens s ->
          exists n : nat,
            done_flags evs = repeat false n ++ [true] /\
            requests evs = Z.of_nat n + 1))).
  - intros s w s' w' Hb Hlow Hmax.
    apply next_token_body_Stop in Hb as (-> & -> & Hwhy).
    exists []. rewrite app_nil_r. repeat split; try reflexivity.
    intros Hes Hlt. destruct Hwhy; (congruence || lia).
  - intros s w s1 w1 s' w' Hb IH Hlow Hmax.
    destruct (next_token_body_frame _ _ _ _ _ _ Hb) as (_ & Hm & _ & Hc).
    destruct (next_token_body_trace _ _ _ _ _ Hb)
      as (ready & ctx & Htr & _ & Hdone & _).
    pose proof Hb as Hb'.
    apply next_token_body_Again in Hb'
      as (Hlt & Hes & id & ids & l & _ & Hs1 & _).
    cbn zeta in Hs1.
    rewrite to_int_id in Hc by (unfold in_int; lia).
    destruct IH as (evs & Htr' & Hnone & Hsome); [lia | lia |].
    eexists. split; [rewrite Htr', Htr, <- app_assoc; reflexivity|].
    split; [intros [?|?]; (congruence || lia)|].
    intros _ _. rewrite requests_app, done_flags_app.
    change (requests [_; _]) with 1. cbn [done_flags]. rewrite Hdone.
    destruct (early_stop s1) eqn:Hes1.
    + rewrite Hnone by now left. exists 0%nat.
      change (requests []) with 0. split; [reflexivity | lia].
    + assert (Hbelow : response_count s1 < max_num_output_tokens s1).
      { destruct (Z.eq_dec (response_count s1) (max_num_output_tokens s1))
          as [Heq|Hne]; [|lia].
        rewrite Hs1, (absorb_token_ceiling e) in Hes1; [discriminate|].
        destruct (absorb_token_frame e (piece e id)
                    (set_response_count (to_int (response_count s + 1)) s))
          as ((_ & Hm0 & Hc0 & _) & _).
        rewrite <- Hs1 in Hm0, Hc0. congruence. }
      destruct (Hsome eq_refl Hbelow) as (n & Hflags & Hreq).
      exists (S n). rewrite Hflags, Hreq. split; [reflexivity | lia].
Qed.

End GenerationExtras.

(** ** The entry points, beyond the claims *)

Section ApiExtras.

Context {L : Type}.
Implicit Types (e : Engine L) (s : Session) (w : World L).

(** X3: whatever stop sequences are configured, a generation on a session
    whose counter is not negative asks the backend for at most the budget
    less the length of the encoded prompt (start token included), and
    for nothing when that is not positive.  The difference is taken to
    be an [int], as the field that stores it. *)
Theorem generation_within_budget e (cb : CCallback) (input : string)
    s w s' w' (ids : list Z) :
  Encode (tokenizer e) input = (OkStatus, ids) ->
  in_int (max_num_tokens e - Z.of_nat (length (start_token_id e :: ids))) ->
  0 <= response_count s ->
  PredictAsync e cb input s w = Returns (s', w') ->
  exists evs,
    trace w' = trace w ++ evs /\
    requests evs
    <= Z.max 0 (max_num_tokens e
                - Z.of_nat (length (start_token_id e :: ids))).
Proof.
  intros He Hint Hcount Hrun. unfold PredictAsync in Hrun.
  apply start_llm_function_Returns in Hrun as (ids' & l & He' & _ & Hrun).
  cbn [prompt reset_request] in He'. rewrite He in He'.
  injection He' as <-.
  unfold next_token_function in Hrun.
  apply generation_bound in Hrun as (evs & Htr & _ & Hreq & _);
    cbn [max_num_output_tokens response_count trace
         set_max_num_output_tokens reset_request log_event] in *.
  - rewrite output_ceiling_exact in Hreq by assumption.
    exists (CallInitInputTokens (start_token_id e :: ids) :: evs).
    change (requests (CallInitInputTokens ?i :: ?evs)) with (requests evs).
    split; [rewrite Htr, <- app_assoc; reflexivity | lia].
  - unfold INT_MIN. lia.
  - apply output_ceiling_int.
Qed.

(** X4: the worker talks to the outside in a fixed pattern: it hands the
    start token followed by the ids of the prompt to the backend, once,
    and then every request for a token is followed at once by one call of
    the callback that was given, with a context of one entry, also when
    the text is empty; so there are as many deliveries as requests. *)
Theorem PredictAsync_exchanges e (cb : CCallback) (input : string)
    s w s' w' :
  PredictAsync e cb input s w = Returns (s', w') ->
  exists (ids : list Z) (ds : list (LlmResponseContext * string)),
    Encode (tokenizer e) input = (OkStatus, ids) /\
    trace w' = trace w ++
      CallInitInputTokens (start_token_id e :: ids) :: exchanges cb ds /\
    Forall (fun d => Response.response_count d.1 = 1 /\
                     response_array d.1 <> None) ds /\
    requests (exchanges cb ds) = Z.of_nat (deliveries (exchanges cb ds)).
Proof.
  intros Hrun. unfold PredictAsync in Hrun.
  apply start_llm_function_Returns in Hrun as (ids & l & He & _ & Hrun).
  cbn [prompt reset_request] in He.
  unfold next_token_function in Hrun.
  apply generation_exchanges in Hrun as (ds & Htr & Hall).
  cbn [cpu_callback trace set_max_num_output_tokens reset_request
       log_event] in Htr.
  exists ids, ds. split; [assumption|].
  split; [rewrite Htr, <- app_assoc; reflexivity|].
  split; [assumption|].
  now rewrite requests_exchanges, deliveries_exchanges.
Qed.

(** X5: whatever stop sequences are configured, the callback sees [done]
    set on its last invocation and on no other; it is not called at all
    exactly when no token was asked for.  The session's counter is an
    [int]. *)
Theorem done_only_on_last_delivery e (cb : CCallback) (input : string)
    s w s' w' :
  in_int (response_count s) ->
  PredictAsync e cb input s w = Returns (s', w') ->
  exists evs,
    trace w' = trace w ++ evs /\
    ((done_flags evs = [] /\ requests evs = 0) \/
     (exists n : nat,
         done_flags evs = repeat false n ++ [true] /\
         requests evs = Z.of_nat n + 1)).
Proof.
  intros [Hlow _] Hrun. unfold PredictAsync in Hrun.
  apply start_llm_function_Returns in Hrun as (ids & l & _ & _ & Hrun).
  unfold next_token_function in Hrun.
  apply generation_done_pattern in Hrun as (evs & Htr & Hnone & Hsome);
    cbn [max_num_output_tokens response_count early_stop trace
         set_max_num_output_tokens reset_request log_event] in *;
    [| assumption | apply output_ceiling_int].
  exists (CallInitInputTokens (start_token_id e :: ids) :: evs).
  change (requests (CallInitInputTokens ?i :: ?evs)) with (requests evs).
  change (done_flags (CallInitInputTokens ?i :: ?evs)) with (done_flags evs).
  split; [rewrite Htr, <- app_assoc; reflexivity|].
  destruct (Z_lt_le_dec (response_count s)
              (output_ceiling e (start_token_id e :: ids))) as [Hlt|Hge].
  - right. now apply Hsome.
  - left. rewrite Hnone by now right. now split.
Qed.

(** X6: the context that synchronous predict returns can be released:
    [CloseResponseContext] succeeds on it and clears it.  What stays
    behind are the results of the chunks, which went to the empty
    callback: two blocks of [malloc] per request, the entry array and
    the text, that nothing points to any more.  (The context structure
    of each chunk, which [make_unique] allocates, is not part of this
    heap.) *)
Theorem PredictSync_close_leaves_chunks e (input : string) s w ctx s' w' :
  PredictSync e input s w = Returns (ctx, s', w') ->
  exists evs ctx' (h' : gmap addr block),
    trace w' = trace w ++ evs /\
    CloseResponseContext ctx (heap w') = Some (ctx', h') /\
    Response.response_count ctx' = 0 /\
    response_array ctx' = None /\
    blocks h' = blocks (heap w) + 2 * requests evs /\
    heap w ⊆ h'.
Proof.
  unfold PredictSync.
  destruct (PredictAsync e Discard input s w) as [[s1 w1]| | |] eqn:Hrun;
    try discriminate.
  destruct (alloc_result _ _) as [a h1] eqn:Ha.
  intros [= <- <- <-]. cbn [heap trace].
  unfold PredictAsync in Hrun.
  apply start_llm_function_Returns in Hrun as (ids & l & _ & _ & Hrun).
  unfold next_token_function in Hrun.
  apply generation_heap in Hrun as (evs & Htr & Hblocks & Hsub).
  cbn [heap trace log_event] in *.
  exists (CallInitInputTokens (start_token_id e :: ids) :: evs).
  change (requests (CallInitInputTokens ?i :: ?evs)) with (requests evs).
  eexists _, (heap w1).
  split; [rewrite Htr, <- app_assoc; reflexivity|].
  split; [apply (close_after_alloc _ _ _ _ _ Ha)|]. now repeat split.
Qed.

(** X7: predict has no error result.  A prompt that [Encode] rejects, for
    which [SizeInTokens] returns -1 and the message, aborts the process
    in predict; so does a backend that rejects the prompt, and one that
    fails at the first request; a backend that succeeds with no id at
    all leaves the read of [token_ids_per_step[0]] undefined. *)
Theorem predict_aborts_on_failure e (input : string) s w :
  (forall text ids,
      Encode (tokenizer e) input = (ErrorStatus text, ids) ->
      SizeInTokens e input = (-1, Some (c_str text)) /\
      PredictSync e input s w = Fatal ("Failed to encode input: " +:+ text)) /\
  (forall ids,
      Encode (tokenizer e) input = (OkStatus, ids) ->
      (forall text l,
          InitInputTokens (llm e) (start_token_id e :: ids) (llm_state w)
          = (ErrorStatus text, l) ->
          PredictSync e input s w
          = Fatal ("Failed to process input tokens: " +:+ text)) /\
      (forall l,
          InitInputTokens (llm e) (start_token_id e :: ids) (llm_state w)
          = (OkStatus, l) ->
          response_count s < output_ceiling e (start_token_id e :: ids) ->
          (forall text token_ids l',
              GetNextToken (llm e) l = (ErrorStatus text, token_ids, l') ->
              PredictSync e input s w
              = Fatal ("Failed to generate output: " +:+ text)) /\
          (forall l',
              GetNextToken (llm e) l = (OkStatus, [], l') ->
              PredictSync e input s w = Undefined))).
Proof.
  split.
  - intros text ids He. split.
    + unfold SizeInTokens. now rewrite He.
    + unfold PredictSync, PredictAsync, start_llm_function.
      cbn [prompt reset_request]. now rewrite He.
  - intros ids He. split.
    + intros text l Hi.
      unfold PredictSync, PredictAsync, start_llm_function.
      cbn [prompt reset_request]. rewrite He. cbn [ok negb].
      now rewrite Hi.
    + intros l Hi Hlt.
      assert (Hstart : PredictAsync e Discard input s w
        = match next_token_body e
                  (set_max_num_output_tokens
                     (output_ceiling e (start_token_id e :: ids))
                     (reset_request Discard input s))
                  (log_event (CallInitInputTokens (start_token_id e :: ids))
                     {| llm_state := l; heap := heap w; trace := trace w |})
          with
          | Returns (Again, s1, w1) => next_token_function e s1 w1
          | Returns (Stop, s1, w1) => Returns (s1, w1)
          | Fatal message => Fatal message
          | Undefined => Undefined
          | OutOfFuel => OutOfFuel
          end).
      { unfold PredictAsync.
        rewrite (start_llm_function_ok e _ w ids l) by assumption.
        apply next_token_function_unfold.
        cbn [max_num_output_tokens set_max_num_output_tokens].
        apply output_ceiling_int. }
      apply Z.ltb_lt in Hlt.
      split.
      * intros text token_ids l' Hg. unfold PredictSync. rewrite Hstart.
        unfold next_token_body.
        cbn [max_num_output_tokens response_count early_stop llm_state
             set_max_num_output_tokens set_response_count reset_request
             log_event].
        now rewrite Hlt, Hg.
      * intros l' Hg. unfold PredictSync. rewrite Hstart.
        unfold next_token_body.
        cbn [max_num_output_tokens response_count early_stop llm_state
             set_max_num_output_tokens set_response_count reset_request
             log_event].
        now rewrite Hlt, Hg.
Qed.

(** X8: the counter is never reset, so a session wears out.  Once
    [response_count] has reached the budget less one, no prompt
    generates anything on this session any more: predict hands the prompt
    to the backend, asks for no token, calls no callback, and synchronous
    predict returns the empty text.  (The counter is below [INT_MAX]:
    its increment there is undefined in C.) *)
Theorem spent_session_generates_nothing e (input : string) s w
    (ids : list Z) (l : L) :
  Encode (tokenizer e) input = (OkStatus, ids) ->
  InitInputTokens (llm e) (start_token_id e :: ids) (llm_state w)
  = (OkStatus, l) ->
  in_int (max_num_tokens e - Z.of_nat (length (start_token_id e :: ids))) ->
  max_num_tokens e - 1 <= response_count s ->
  response_count s < INT_MAX ->
  exists ctx s' w',
    PredictSync e input s w = Returns (ctx, s', w') /\
    trace w' = trace w ++ [CallInitInputTokens (start_token_id e :: ids)] /\
    final_output s' = EmptyString /\
    read_response ctx (heap w') = Some [EmptyString] /\
    done ctx = true.
Proof.
  intros He Hi Hint Hspent _.
  assert (Hceil : output_ceiling e (start_token_id e :: ids)
                  <= response_count s).
  { rewrite output_ceiling_exact by assumption. cbn [length]. lia. }
  unfold PredictSync, PredictAsync.
  rewrite (start_llm_function_ok e _ w ids l) by assumption.
  rewrite next_token_function_ceiling by exact Hceil.
  destruct (alloc_result _ _) as [a h'] eqn:Ha.
  eexists _, _, _. split; [reflexivity|].
  cbn [trace heap final_output log_event set_response_count
       set_max_num_output_tokens reset_request done].
  repeat split. apply (read_alloc_result _ _ _ _ _ Ha).
Qed.

(** X9: the recursion of [next_token_function] is bounded.  Take a
    session whose counter is an [int] below [INT_MAX] and a prompt whose
    ceiling is below [INT_MAX], so that no increment of the counter
    overflows, a tokenizer that encodes the prompt and a backend that
    accepts it and answers every request with at least one id.  Then
    synchronous predict returns a context, whatever the stop sequences;
    the function has called itself once per request, at most ceiling
    less counter times (one frame of the stack each), and the counter
    ends at its old value plus the number of requests plus one, the
    increment of the activation that returned. *)
Theorem PredictSync_returns e (input : string) s w (ids : list Z) :
  Encode (tokenizer e) input = (OkStatus, ids) ->
  (forall prompt_ids st, exists st',
      InitInputTokens (llm e) prompt_ids st = (OkStatus, st')) ->
  (forall st, exists id token_ids st',
      GetNextToken (llm e) st = (OkStatus, id :: token_ids, st')) ->
  INT_MIN <= response_count s < INT_MAX ->
  output_ceiling e (start_token_id e :: ids) < INT_MAX ->
  exists ctx s' w' evs,
    PredictSync e input s w = Returns (ctx, s', w') /\
    trace w' = trace w ++
      CallInitInputTokens (start_token_id e :: ids) :: evs /\
    requests evs
    <= Z.max 0 (output_ceiling e (start_token_id e :: ids)
                - response_count s) /\
    response_count s' = response_count s + requests evs + 1 /\
    response_count s' <= INT_MAX.
Proof.
  intros He Hinit Hnext [Hlow Hhigh] Hceil.
  destruct (Hinit (start_token_id e :: ids) (llm_state w)) as [l Hi].
  unfold PredictSync, PredictAsync.
  rewrite (start_llm_function_ok e _ w ids l) by assumption.
  destruct (next_token_function_returns e
              (set_max_num_output_tokens
                 (output_ceiling e (start_token_id e :: ids))
                 (reset_request Discard input s))
              (log_event (CallInitInputTokens (start_token_id e :: ids))
                 {| llm_state := l; heap := heap w; trace := trace w |})
              Hnext) as (s1 & w1 & Hrun).
  - cbn [max_num_output_tokens set_max_num_output_tokens].
    apply output_ceiling_int.
  - rewrite Hrun. unfold next_token_function in Hrun.
    apply generation_bound in Hrun as (evs & Htr & _ & Hreq & Hcount);
      cbn [max_num_output_tokens response_count trace
           set_max_num_output_tokens reset_request log_event] in *;
      [| assumption | apply output_ceiling_int].
    specialize (Hcount Hhigh Hceil).
    destruct (alloc_result _ _) as [a h'].
    eexists _, s1, _, evs. split; [reflexivity|]. cbn [trace].
    split; [rewrite Htr, <- app_assoc; reflexivity|].
    split; [assumption|]. split; [assumption|]. lia.
Qed.

End ApiExtras.

(** ** Occurrences of a string in a concatenation *)

Section OccurrenceFacts.

Lemma substring_append_l (a b : string) (k m : nat) :
  (k + m <= String.length a)%nat ->
  String.substring k m (a +:+ b) = String.substring k m a.
Proof.
  revert k m. induction a as [|c a IH]; intros k m H.
  - cbn [String.length] in H. assert (k = 0 /\ m = 0)%nat as [-> ->] by lia.
    rewrite append_nil. now rewrite !substring_empty.
  - rewrite append_cons. destruct k as [|k]; cbn [String.substring].
    + destruct m as [|m]; [reflexivity|].
      rewrite IH by (cbn [String.length] in H; lia). reflexivity.
    + apply IH. cbn [String.length] in H. lia.
Qed.

Lemma substring_append_r (a b : string) (k m : nat) :
  (String.length a <= k)%nat ->
  String.substring k m (a +:+ b)
  = String.substring (k - String.length a) m b.
Proof.
  revert k. induction a as [|c a IH]; intros k H.
  - rewrite append_nil. cbn [String.length]. now rewrite Nat.sub_0_r.
  - rewrite append_cons. cbn [String.length] in *.
    destruct k as [|k]; [lia|]. cbn [String.substring Nat.sub].
    apply IH. lia.
Qed.

Lemma length_substring_le (s : string) (k m : nat) :
  (String.length (String.substring k m s) <= String.length s - k)%nat.
Proof.
  revert k m. induction s as [|c s IH]; intros [|k] [|m];
    cbn [String.substring String.length]; try lia.
  - specialize (IH 0%nat m). lia.
  - apply IH.
  - apply IH.
Qed.

(** An occurrence of a string that is not empty lies inside. *)
Lemma occurs_at_bound (s t : string) (k : nat) :
  occurs_at s t k -> t <> EmptyString ->
  (k + String.length t <= String.length s)%nat.
Proof.
  intros Hocc Hne. unfold occurs_at in Hocc.
  pose proof (length_substring_le s k (String.length t)) as Hle.
  rewrite Hocc in Hle.
  destruct t as [|c t]; [congruence|]. cbn [String.length] in *. lia.
Qed.

Lemma occurs_at_app_l (a b t : string) (k : nat) :
  (k + String.length t <= String.length a)%nat ->
  occurs_at (a +:+ b) t k <-> occurs_at a t k.
Proof. intros H. unfold occurs_at. now rewrite substring_append_l. Qed.

Lemma occurs_at_app_r (a b t : string) (k : nat) :
  (String.length a <= k)%nat ->
  occurs_at (a +:+ b) t k <-> occurs_at b t (k - String.length a).
Proof. intros H. unfold occurs_at. now rewrite substring_append_r. Qed.

(** What occurs in the front part of a string occurs in the string. *)
Lemma contains_front (p q t : string) :
  t <> EmptyString -> contains p t -> contains (p +:+ q) t.
Proof.
  intros Hne [k Hk]. exists k.
  apply occurs_at_app_l; [|assumption]. now apply occurs_at_bound.
Qed.

(** Of two front parts of one string, the shorter is a front part of the
    longer. *)
Lemma front_parts_compare (a b c d : string) :
  a +:+ b = c +:+ d ->
  (String.length a <= String.length c)%nat ->
  exists u, c = a +:+ u.
Proof.
  revert c. induction a as [|x a IH]; intros c Heq Hlen.
  - now exists c.
  - destruct c as [|y c]; cbn [String.length] in Hlen; [lia|].
    rewrite !append_cons in Heq. injection Heq as -> Heq.
    destruct (IH c Heq) as [u ->]; [lia|].
    exists u. now rewrite append_cons.
Qed.

(** A string of at most [n] characters that occurs neither in [f +:+ r]
    nor in [b'] does not occur in [f +:+ b'] either, when [b'] is a front
    part of [r +:+ token] and [r] has at least [n] characters unless [f]
    is empty: no occurrence can reach from [f] beyond [r]. *)
Lemma no_occurrence_across (f r token b' rest t : string) (n : nat) :
  t <> EmptyString ->
  (String.length t <= n)%nat ->
  (f = EmptyString \/ n <= String.length r)%nat ->
  r +:+ token = b' +:+ rest ->
  ~ contains (f +:+ r) t ->
  ~ contains b' t ->
  ~ contains (f +:+ b') t.
Proof.
  intros Hne Hlen Hguard Hfront Hold Hnew [k Hk].
  destruct (Nat.le_gt_cases (String.length f) k) as [Hin|Hout].
  - apply Hnew. exists (k - String.length f)%nat.
    now apply occurs_at_app_r in Hk.
  - destruct Hguard as [-> | Hguard]; [cbn [String.length] in Hout; lia|].
    pose proof (occurs_at_bound _ _ _ Hk Hne) as Hbound.
    rewrite length_append in Hbound.
    destruct (Nat.le_gt_cases (String.length b') (String.length r))
      as [Hshort|Hlong].
    + symmetry in Hfront.
      destruct (front_parts_compare b' rest r token Hfront Hshort) as [u ->].
      apply Hold. rewrite <- append_assoc.
      apply contains_front; [assumption|]. now exists k.
    + destruct (front_parts_compare r token b' rest Hfront) as [u ->]; [lia|].
      apply Hold. exists k. rewrite <- append_assoc in Hk.
      apply occurs_at_app_l in Hk; [assumption|].
      rewrite length_append. lia.
Qed.

End OccurrenceFacts.

(** ** The matcher and the output *)

Section MatcherExtras.

Implicit Types (s : Session) (tokens : list string).

(** The matcher only ever cuts the buffer at its end. *)
Lemma stop_token_loop_front tokens s :
  exists rest,
    last_10_char s = last_10_char (stop_token_loop tokens s) +:+ rest.
Proof.
  induction tokens as [|t tokens IH]; cbn [stop_token_loop].
  - exists EmptyString. now rewrite append_empty_r.
  - destruct (negb _); [|exact IH].
    cbn [last_10_char set_last_10_char set_early_stop]. unfold substr.
    rewrite Z.sub_0_r. change (Z.to_nat 0) with 0%nat.
    set (j := Z.to_nat (Z.min _ (size (last_10_char s)))).
    eexists. symmetry. apply (substring_split (last_10_char s) j).
    subst j. unfold size. lia.
Qed.

(** Without a match the matcher leaves the session alone. *)
Lemma stop_token_loop_unset tokens s :
  early_stop (stop_token_loop tokens s) = false ->
  stop_token_loop tokens s = s.
Proof.
  induction tokens as [|t tokens IH]; cbn [stop_token_loop];
    [reflexivity|].
  destruct (negb _); [discriminate | exact IH].
Qed.

(** The empty string occurs at the start of every buffer. *)
Lemma find_empty (buffer : string) : find buffer EmptyString = 0.
Proof. unfold find. now destruct buffer. Qed.

Lemma stop_token_loop_empty tokens s :
  In EmptyString tokens -> early_stop (stop_token_loop tokens s) = true.
Proof.
  induction tokens as [|t tokens IH]; intros Hin; [destruct Hin|].
  cbn [stop_token_loop].
  destruct (negb _) eqn:Hmatch; [reflexivity|].
  destruct Hin as [-> | Hin]; [|now apply IH].
  rewrite find_empty in Hmatch. discriminate.
Qed.

Lemma stop_token_loop_empty_first tokens s :
  last_10_char (stop_token_loop (EmptyString :: tokens) s) = EmptyString.
Proof.
  cbn [stop_token_loop]. rewrite find_empty.
  change (negb (to_size_t (to_int 0) =? npos)) with true. cbv iota.
  cbn [last_10_char set_last_10_char]. unfold substr.
  change (to_size_t (to_int 0)) with 0.
  rewrite Z.min_l by (unfold size; lia).
  apply substring_empty.
Qed.

(** X10: on a buffer shorter than [2 ^ 31] characters, with [early_stop]
    not yet set, the matcher sets [early_stop] exactly when one of the
    configured sequences occurs in the buffer. *)
Theorem stop_token_loop_decides tokens s :
  size (last_10_char s) <= INT_MAX ->
  early_stop s = false ->
  early_stop (stop_token_loop tokens s) = true
  <-> exists t, In t tokens /\ contains (last_10_char s) t.
Proof.
  intros Hsize Hes. induction tokens as [|t tokens IH].
  - cbn [stop_token_loop]. split; [congruence | intros (t & [] & _)].
  - destruct (find_from (last_10_char s) t 0) as [i|] eqn:Hfind.
    + apply find_from_Some in Hfind as (_ & Hocc & _ & Hmin).
      rewrite Nat.sub_0_r in *.
      rewrite (stop_token_loop_cons_present tokens s t i) by assumption.
      split; [|reflexivity]. intros _. exists t. split; [now left|].
      now exists i.
    + pose proof (find_from_None _ _ _ Hfind) as Habsent.
      rewrite (stop_token_loop_cons_absent tokens s t) by assumption.
      rewrite IH. split; intros (u & Hin & Hu).
      * exists u. split; [now right | assumption].
      * destruct Hin as [-> | Hin]; [|now exists u].
        destruct Hu as [k Hk]. now apply Habsent in Hk.
Qed.

(** After the matcher has run, the sequence configured first, when it
    is not empty, does not occur in the buffer. *)
Lemma stop_token_loop_first_gone tokens s (t : string) :
  size (last_10_char s) <= INT_MAX ->
  t <> EmptyString ->
  ~ contains (last_10_char (stop_token_loop (t :: tokens) s)) t.
Proof.
  intros Hsize Hne.
  destruct (find_from (last_10_char s) t 0) as [i|] eqn:Hfind.
  - apply find_from_Some in Hfind as (_ & Hocc & Hlen & Hmin).
    rewrite Nat.sub_0_r in *.
    rewrite (stop_token_loop_cons_present tokens s t i) by assumption.
    cbn [last_10_char set_last_10_char]. intros [k Hk].
    pose proof (occurs_at_bound _ _ _ Hk Hne) as Hbound.
    rewrite length_substring in Hbound by lia.
    apply (Hmin k).
    + destruct t; [congruence | cbn [String.length] in Hbound; lia].
    + rewrite <- (substring_split (last_10_char s) i) by assumption.
      apply occurs_at_app_l; [|assumption].
      now rewrite length_substring by lia.
  - pose proof (find_from_None _ _ _ Hfind) as Habsent.
    rewrite (stop_token_loop_cons_absent tokens s t) by assumption.
    destruct (stop_token_loop_front tokens s) as [rest Hfront].
    intros Hin. apply (contains_front _ rest) in Hin; [|assumption].
    rewrite <- Hfront in Hin. destruct Hin as [k Hk].
    now apply Habsent in Hk.
Qed.

End MatcherExtras.

(** ** Stop sequences and the output of a generation *)

Section OutputExtras.

Context {L : Type}.
Implicit Types (e : Engine L) (s : Session) (w : World L).

(** One token more keeps [stop_free] for the sequence configured first,
    when that sequence has between 1 and [kCheckLastKChars] characters. *)
Lemma absorb_token_stop_free e (token t : string) (rest : list string) s :
  stop_tokens e = t :: rest ->
  t <> EmptyString ->
  size t <= kCheckLastKChars ->
  size token <= INT_MAX - kCheckLastKChars ->
  early_stop s = false ->
  stop_free t s ->
  stop_free t (absorb_token e token s).2.
Proof.
  intros Hstop Hne Hshort Htoken Hes Hinv.
  unfold stop_free in Hinv. rewrite Hes in Hinv.
  destruct Hinv as (Hold & Hbuf & Hguard).
  rewrite absorb_token_eq, Hstop. cbn [snd].
  set (s1 := if response_count s =? max_num_output_tokens s
             then set_early_stop true s else s).
  set (s2 := set_last_10_char (last_10_char s1 +:+ token) s1).
  set (s3 := stop_token_loop (t :: rest) s2).
  assert (Hs2 : last_10_char s2 = last_10_char s +:+ token
                /\ final_output s2 = final_output s).
  { subst s2 s1. now destruct (_ =? _). }
  destruct Hs2 as [Hb2 Hf2].
  assert (Hsize : size (last_10_char s2) <= INT_MAX).
  { rewrite Hb2, size_append. lia. }
  pose proof (stop_token_loop_first_gone rest s2 t Hsize Hne) as Hnew.
  destruct (stop_token_loop_front (t :: rest) s2) as [tail Hfront].
  destruct (stop_token_loop_frame (t :: rest) s2) as (_ & Hf3).
  fold s3 in Hnew, Hfront, Hf3. rewrite Hb2 in Hfront. rewrite Hf2 in Hf3.
  assert (Hcore : ~ contains (final_output s +:+ last_10_char s3) t).
  { apply (no_occurrence_across _ (last_10_char s) token _ tail _ 10);
      try assumption.
    - unfold size, kCheckLastKChars in Hshort. lia.
    - destruct Hguard as [Hf|Hr]; [now left | right].
      unfold size, kCheckLastKChars in Hr. lia. }
  destruct (take_ready_char_frame s3) as (_ & Hf4 & He4).
  destruct (take_ready_char_no_stop s3) as [Hfinal Hgoing].
  cbn zeta in Hfinal, Hgoing.
  unfold stop_free. cbn [early_stop final_output last_10_char set_final_output].
  rewrite He4, Hf4, Hf3.
  destruct (early_stop s3) eqn:Hes3.
  - destruct (Hfinal eq_refl) as [-> _]. exact Hcore.
  - destruct (Hgoing eq_refl) as (Hsplit & Hten & Hnone).
    split; [now rewrite append_assoc, Hsplit|].
    destruct ((take_ready_char s3).1) as [|c ready] eqn:Hready.
    + destruct (Hnone eq_refl) as [Hle Hsame]. rewrite Hsame.
      split; [assumption|]. rewrite append_empty_r.
      destruct Hguard as [Hf|Hr]; [now left | right].
      subst s3. rewrite (stop_token_loop_unset _ _ Hes3), Hb2, size_append.
      pose proof (size_nonneg token). lia.
    + rewrite Hten by discriminate. split; [lia | right; lia].
Qed.

Lemma generation_stop_free e (t : string) (rest : list string)
    (fuel : nat) s w s' w' :
  stop_tokens e = t :: rest ->
  t <> EmptyString ->
  size t <= kCheckLastKChars ->
  (forall id, size (piece e id) <= INT_MAX - kCheckLastKChars) ->
  next_token_fuel fuel e s w = Returns (s', w') ->
  stop_free t s ->
  ~ contains (final_output s') t.
Proof.
  intros Hstop Hne Hshort Hpieces. revert fuel s w s' w'.
  apply (next_token_fuel_ind e
    (fun s w s' w' => stop_free t s -> ~ contains (final_output s') t)).
  - intros s w s' w' Hb Hinv.
    apply next_token_body_Stop in Hb as (_ & -> & _).
    cbn [final_output set_response_count].
    unfold stop_free in Hinv. destruct (early_stop s); [assumption|].
    destruct Hinv as (Hold & _). intros Hin. apply Hold.
    now apply contains_front.
  - intros s w s1 w1 s' w' Hb IH Hinv. apply IH.
    apply next_token_body_Again in Hb
      as (_ & Hes & id & ids & l & _ & -> & _).
    now apply (absorb_token_stop_free e _ t rest).
Qed.

(** X11: the stop sequence that is configured first, when it has between 1
    and 10 characters, never shows in the output of a generation: the ten
    characters held back are enough for it not to slip through in two
    pieces.  (Token texts are short enough for positions in the buffer
    to fit an [int].) *)
Theorem first_stop_sequence_never_in_output e (cb : CCallback)
    (input t : string) (rest : list string) s w s' w' :
  stop_tokens e = t :: rest ->
  1 <= size t <= kCheckLastKChars ->
  (forall id, size (piece e id) <= INT_MAX - kCheckLastKChars) ->
  PredictAsync e cb input s w = Returns (s', w') ->
  ~ contains (final_output s') t.
Proof.
  intros Hstop [Hone Hshort] Hpieces Hrun.
  assert (Hne : t <> EmptyString).
  { intros ->. unfold size in Hone. cbn in Hone. lia. }
  unfold PredictAsync in Hrun.
  apply start_llm_function_Returns in Hrun as (ids & l & _ & _ & Hrun).
  unfold next_token_function in Hrun.
  apply (generation_stop_free e t rest _ _ _ _ _ Hstop Hne Hshort Hpieces Hrun).
  unfold stop_free.
  cbn [early_stop final_output last_10_char set_max_num_output_tokens
       reset_request].
  split; [|split; [unfold size, kCheckLastKChars; cbn; lia | now left]].
  intros [k Hk]. rewrite append_nil in Hk.
  apply occurs_at_bound in Hk; [|assumption].
  destruct t; [congruence | cbn [String.length] in Hk; lia].
Qed.

(** With the empty string among the stop sequences, a token always stops
    the generation; configured first, it also cuts the text to
    nothing. *)
Lemma absorb_token_empty_stop e (token : string) s :
  In EmptyString (stop_tokens e) ->
  early_stop (absorb_token e token s).2 = true /\
  (forall rest, stop_tokens e = EmptyString :: rest ->
                (absorb_token e token s).1 = EmptyString).
Proof.
  intros Hin. rewrite absorb_token_eq. cbn [fst snd].
  set (s2 := set_last_10_char _ _).
  pose proof (stop_token_loop_empty (stop_tokens e) s2 Hin) as Hes3.
  destruct (take_ready_char_frame (stop_token_loop (stop_tokens e) s2))
    as (_ & _ & He4).
  cbn [early_stop set_final_output]. rewrite He4. split; [assumption|].
  intros rest Hfirst.
  destruct (take_ready_char_no_stop (stop_token_loop (stop_tokens e) s2))
    as [Hfinal _].
  cbn zeta in Hfinal. destruct (Hfinal Hes3) as [-> _].
  rewrite Hfirst. apply stop_token_loop_empty_first.
Qed.

Lemma generation_empty_stop e (fuel : nat) s w s' w' :
  In EmptyString (stop_tokens e) ->
  next_token_fuel fuel e s w = Returns (s', w') ->
  exists evs,
    trace w' = trace w ++ evs /\
    (early_stop s = true -> evs = [] /\ final_output s' = final_output s) /\
    requests evs <= 1 /\
    (forall rest, stop_tokens e = EmptyString :: rest ->
                  final_output s' = final_output s).
Proof.
  intros Hin. revert fuel s w s' w'. apply (next_token_fuel_ind e
    (fun s w s' w' =>
       exists evs,
         trace w' = trace w ++ evs /\
         (early_stop s = true ->
          evs = [] /\ final_output s' = final_output s) /\
         requests evs <= 1 /\
         (forall rest, stop_tokens e = EmptyString :: rest ->
                       final_output s' = final_output s))).
  - intros s w s' w' Hb.
    apply next_token_body_Stop in Hb as (-> & -> & _).
    exists []. rewrite app_nil_r. change (requests []) with 0.
    repeat split. lia.
  - intros s w s1 w1 s' w' Hb (evs & Htr & Hstopped & _ & _).
    destruct (next_token_body_trace _ _ _ _ _ Hb)
      as (ready & ctx & Htr1 & _).
    apply next_token_body_Again in Hb
      as (_ & Hes & id & ids & l & _ & Hs1 & _).
    cbn zeta in Hs1.
    destruct (absorb_token_empty_stop e (piece e id)
                (set_response_count (to_int (response_count s + 1)) s) Hin)
      as [Hes1 Hcut].
    destruct (absorb_token_frame e (piece e id)
                (set_response_count (to_int (response_count s + 1)) s))
      as (_ & Hout).
    rewrite <- Hs1 in Hes1, Hout.
    destruct (Hstopped Hes1) as [-> Hsame].
    eexists. split; [rewrite Htr, Htr1, app_nil_r; reflexivity|].
    split; [congruence|]. split; [now change (requests [_; _]) with 1|].
    intros rest Hfirst. rewrite Hsame, Hout, (Hcut rest Hfirst).
    cbn [final_output set_response_count]. apply append_empty_r.
Qed.

(** X12: the empty string as a stop sequence matches every buffer at
    position 0.  With it anywhere in the list, a generation asks the
    backend for one token at most; with it first in the list, the output
    is empty as well. *)
Theorem empty_stop_sequence_halts e (cb : CCallback) (input : string)
    s w s' w' :
  In EmptyString (stop_tokens e) ->
  PredictAsync e cb input s w = Returns (s', w') ->
  exists evs,
    trace w' = trace w ++ evs /\
    requests evs <= 1 /\
    (forall rest, stop_tokens e = EmptyString :: rest ->
                  final_output s' = EmptyString).
Proof.
  intros Hin Hrun. unfold PredictAsync in Hrun.
  apply start_llm_function_Returns in Hrun as (ids & l & _ & _ & Hrun).
  unfold next_token_function in Hrun.
  apply (generation_empty_stop e _ _ _ _ _ Hin) in Hrun
    as (evs & Htr & _ & Hreq & Hout).
  cbn [trace final_output log_event set_max_num_output_tokens
       reset_request] in *.
  exists (CallInitInputTokens (start_token_id e :: ids) :: evs).
  change (requests (CallInitInputTokens ?i :: ?evs)) with (requests evs).
  split; [rewrite Htr, <- app_assoc; reflexivity|]. now split.
Qed.

(** X13: whatever stop sequences are configured, an activation that
    decodes a token and leaves generation running keeps at most
    [kCheckLastKChars] = 10 characters in [last_10_char]; the activation
    that stops generation delivers the whole buffer and does not clear
    it: [last_10_char] still holds the last chunk afterwards. *)
Theorem trailing_buffer_bounded e s w s' w' :
  next_token_body e s w = Returns (Again, s', w') ->
  (early_stop s' = false -> size (last_10_char s') <= kCheckLastKChars) /\
  (early_stop s' = true ->
   final_output s' = final_output s +:+ last_10_char s').
Proof.
  intros Hb.
  apply next_token_body_Again in Hb as (_ & _ & id & ids & l & _ & Hs' & _).
  cbn zeta in Hs'. rewrite absorb_token_eq in Hs'. cbn [snd] in Hs'.
  set (s3 := stop_token_loop _ _) in Hs'.
  destruct (take_ready_char_frame s3) as (_ & Hf4 & He4).
  destruct (take_ready_char_no_stop s3) as [Hfinal Hgoing].
  cbn zeta in Hfinal, Hgoing.
  assert (Hf3 : final_output s3 = final_output s).
  { subst s3. destruct (stop_token_loop_frame (stop_tokens e)
      (set_last_10_char
         (last_10_char
            (if response_count
                  (set_response_count (to_int (response_count s + 1)) s)
                =? max_num_output_tokens
                     (set_response_count (to_int (response_count s + 1)) s)
             then set_early_stop true
                    (set_response_count (to_int (response_count s + 1)) s)
             else set_response_count (to_int (response_count s + 1)) s)
          +:+ piece e id)
         (if response_count
               (set_response_count (to_int (response_count s + 1)) s)
             =? max_num_output_tokens
                  (set_response_count (to_int (response_count s + 1)) s)
          then set_early_stop true
                 (set_response_count (to_int (response_count s + 1)) s)
          else set_response_count (to_int (response_count s + 1)) s)))
      as (_ & ->).
    cbn [final_output set_last_10_char]. now destruct (_ =? _). }
  rewrite Hs'. cbn [early_stop last_10_char final_output set_final_output].
  rewrite He4, Hf4, Hf3. split; intros Hes.
  - destruct (Hgoing Hes) as (_ & Hten & Hnone).
    destruct ((take_ready_char s3).1) as [|c ready].
    + now destruct (Hnone eq_refl) as [Hle ->].
    + rewrite Hten by discriminate. lia.
  - now destruct (Hfinal Hes) as [-> ->].
Qed.

End OutputExtras.

(** ** The output against the text the backend decoded *)

Section DecodedExtras.

Context {L : Type}.
Implicit Types (e : Engine L) (s : Session) (w : World L).

Lemma append_eq_empty (a b : string) :
  a +:+ b = EmptyString -> a = EmptyString /\ b = EmptyString.
Proof. destruct a; [now rewrite append_nil | discriminate]. Qed.

(** What one token adds: the output and the text held back afterwards
    make up the output and the buffer before, followed by the token,
    except for a tail that a stop sequence cut off. *)
Lemma absorb_token_text e (token : string) s :
  exists tail,
    final_output s +:+ last_10_char s +:+ token
    = final_output (absorb_token e token s).2
      +:+ pending (absorb_token e token s).2 +:+ tail /\
    (early_stop (absorb_token e token s).2 = false -> tail = EmptyString) /\
    (stop_tokens e = [] -> tail = EmptyString).
Proof.
  rewrite absorb_token_eq. cbn [snd].
  set (s1 := if response_count s =? max_num_output_tokens s
             then set_early_stop true s else s).
  set (s2 := set_last_10_char (last_10_char s1 +:+ token) s1).
  set (s3 := stop_token_loop (stop_tokens e) s2).
  assert (Hs2 : last_10_char s2 = last_10_char s +:+ token
                /\ final_output s2 = final_output s).
  { subst s2 s1. now destruct (_ =? _). }
  destruct Hs2 as [Hb2 Hf2].
  destruct (stop_token_loop_frame (stop_tokens e) s2) as (_ & Hf3).
  fold s3 in Hf3. rewrite Hf2 in Hf3.
  destruct (take_ready_char_frame s3) as (_ & Hf4 & He4).
  destruct (take_ready_char_no_stop s3) as [Hfinal Hgoing].
  cbn zeta in Hfinal, Hgoing.
  assert (Htail : exists tail,
             last_10_char s +:+ token = last_10_char s3 +:+ tail /\
             (early_stop s3 = false -> tail = EmptyString) /\
             (stop_tokens e = [] -> tail = EmptyString)).
  { destruct (early_stop s3) eqn:Hes3.
    - destruct (stop_tokens e) as [|t rest] eqn:Hstop.
      + exists EmptyString. subst s3. cbn [stop_token_loop].
        now rewrite Hb2, append_empty_r.
      + destruct (stop_token_loop_front (t :: rest) s2) as [tail Hfront].
        fold s3 in Hfront. rewrite Hb2 in Hfront.
        exists tail. repeat split; [assumption | discriminate..].
    - exists EmptyString. subst s3.
      rewrite (stop_token_loop_unset _ _ Hes3), Hb2, append_empty_r.
      now repeat split. }
  destruct Htail as (tail & Hfront & Hgo & Hnone).
  exists tail. unfold pending.
  cbn [early_stop final_output last_10_char set_final_output].
  rewrite He4, Hf4, Hf3. split; [|split; assumption].
  destruct (early_stop s3) eqn:Hes3.
  - destruct (Hfinal eq_refl) as [-> _].
    rewrite append_nil, Hfront. now rewrite append_assoc.
  - destruct (Hgoing eq_refl) as (Hsplit & _).
    rewrite Hfront, <- Hsplit. now rewrite !append_assoc.
Qed.

(** The output of a run in terms of the decoded text. *)
Lemma generation_text e (fuel : nat) s w s' w' :
  next_token_fuel fuel e s w = Returns (s', w') ->
  exists evs tail,
    trace w' = trace w ++ evs /\
    (early_stop s = true ->
     evs = [] /\ final_output s' = final_output s /\ early_stop s' = true) /\
    (early_stop s = false ->
     final_output s +:+ last_10_char s
       +:+ decoded e (Z.to_nat (requests evs)) (llm_state w)
     = final_output s' +:+ pending s' +:+ tail) /\
    (stop_tokens e = [] -> tail = EmptyString).
Proof.
  revert fuel s w s' w'. apply (next_token_fuel_ind e
    (fun s w s' w' =>
       exists evs tail,
         trace w' = trace w ++ evs /\
         (early_stop s = true ->
          evs = [] /\ final_output s' = final_output s /\
          early_stop s' = true) /\
         (early_stop s = false ->
          final_output s +:+ last_10_char s
            +:+ decoded e (Z.to_nat (requests evs)) (llm_state w)
          = final_output s' +:+ pending s' +:+ tail) /\
         (stop_tokens e = [] -> tail = EmptyString))).
  - intros s w s' w' Hb.
    apply next_token_body_Stop in Hb as (-> & -> & _).
    exists [], EmptyString. rewrite app_nil_r.
    split; [reflexivity|].
    split; [intros Hes; repeat split; exact Hes|].
    split; [|reflexivity].
    intros Hes. unfold pending.
    cbn [early_stop final_output last_10_char set_response_count].
    rewrite Hes. reflexivity.
  - intros s w s1 w1 s' w' Hb (evs & tail & Htr & Hstopped & Hgoing & Hnone).
    destruct (next_token_body_trace _ _ _ _ _ Hb)
      as (ready & ctx & Htr1 & _).
    apply next_token_body_Again in Hb
      as (_ & Hes & id & ids & l & Hget & Hs1 & Hw1).
    cbn zeta in Hs1, Hw1.
    assert (Hl : llm_state w1 = l).
    { rewrite Hw1.
      now destruct (call_cpu_callback_trace s1
                      (absorb_token e (piece e id)
                         (set_response_count
                            (to_int (response_count s + 1)) s)).1
                      (log_event CallGetNextToken
                         {| llm_state := l; heap := heap w;
                            trace := trace w |}))
        as (ctx' & _ & _ & _ & ->). }
    destruct (absorb_token_text e (piece e id)
                (set_response_count (to_int (response_count s + 1)) s))
      as (cut & Hstep & Hcut & Hcut').
    rewrite <- Hs1 in Hstep, Hcut.
    cbn [final_output last_10_char set_response_count] in Hstep.
    assert (Hdecoded : forall n,
               decoded e (S n) (llm_state w)
               = piece e id +:+ decoded e n l).
    { intros n. cbn [decoded]. now rewrite Hget. }
    destruct (early_stop s1) eqn:Hes1.
    + destruct (Hstopped eq_refl) as (-> & Hsame & Hes').
      exists [CallGetNextToken;
              CallCallback (cpu_callback s1) ctx (Some [c_str ready])], cut.
      split; [rewrite Htr, Htr1, app_nil_r; reflexivity|].
      split; [congruence|]. split; [|assumption].
      intros _. change (Z.to_nat (requests [_; _])) with 1%nat.
      rewrite Hdecoded. cbn [decoded]. rewrite append_empty_r.
      unfold pending in *. rewrite Hes', Hsame. rewrite Hes1 in Hstep.
      exact Hstep.
    + rewrite (Hcut eq_refl) in Hstep. unfold pending in Hstep.
      rewrite Hes1, append_empty_r in Hstep.
      exists ([CallGetNextToken;
               CallCallback (cpu_callback s1) ctx (Some [c_str ready])]
              ++ evs), tail.
      split; [rewrite Htr, Htr1, <- app_assoc; reflexivity|].
      split; [congruence|]. split; [|assumption].
      intros _. rewrite requests_app. change (requests [_; _]) with 1.
      pose proof (requests_nonneg evs).
      replace (Z.to_nat (1 + requests evs))
        with (S (Z.to_nat (requests evs))) by lia.
      rewrite Hdecoded, <- (Hgoing eq_refl), Hl.
      rewrite <- !append_assoc. rewrite <- !append_assoc in Hstep.
      now rewrite Hstep.
Qed.

(** A run that starts below the ceiling ends with [early_stop] set. *)
Lemma generation_ends_stopped e (fuel : nat) s w s' w' :
  next_token_fuel fuel e s w = Returns (s', w') ->
  INT_MIN <= response_count s ->
  max_num_output_tokens s <= INT_MAX ->
  (early_stop s = true -> early_stop s' = true) /\
  (response_count s < max_num_output_tokens s -> early_stop s' = true).
Proof.
  revert fuel s w s' w'. apply (next_token_fuel_ind e
    (fun s w s' w' =>
       INT_MIN <= response_count s ->
       max_num_output_tokens s <= INT_MAX ->
       (early_stop s = true -> early_stop s' = true) /\
       (response_count s < max_num_output_tokens s ->
        early_stop s' = true))).
  - intros s w s' w' Hb _ _.
    apply next_token_body_Stop in Hb as (_ & -> & Hwhy).
    cbn [early_stop set_response_count].
    split; [auto|]. intros Hlt. destruct Hwhy; [lia | assumption].
  - intros s w s1 w1 s' w' Hb IH Hlow Hmax.
    destruct (next_token_body_frame _ _ _ _ _ _ Hb) as (_ & Hm & _ & Hc).
    pose proof Hb as Hb'.
    apply next_token_body_Again in Hb'
      as (Hlt & Hes & id & ids & l & _ & Hs1 & _).
    cbn zeta in Hs1.
    rewrite to_int_id in Hc by (unfold in_int; lia).
    destruct IH as [Hstopped Hbelow]; [lia | lia |].
    split; [congruence|]. intros _.
    destruct (early_stop s1) eqn:Hes1; [now apply Hstopped|].
    apply Hbelow.
    destruct (Z.eq_dec (response_count s1) (max_num_output_tokens s1))
      as [Heq|Hne]; [|lia].
    rewrite Hs1, (absorb_token_ceiling e) in Hes1; [discriminate|].
    destruct (absorb_token_frame e (piece e id)
                (set_response_count (to_int (response_count s + 1)) s))
      as ((_ & Hm0 & Hc0 & _) & _).
    rewrite <- Hs1 in Hm0, Hc0. congruence.
Qed.

(** X14: the output of a generation is a front part of the text that the
    backend decoded in the requests that were made, in that order:
    nothing is added, reordered or left out in between.  With no stop
    sequence configured it is all of that text: what the lookahead buffer
    holds back is put out at the end.  The session's counter is an
    [int]. *)
Theorem output_is_decoded_text e (cb : CCallback) (input : string)
    s w s' w' :
  in_int (response_count s) ->
  PredictAsync e cb input s w = Returns (s', w') ->
  exists (ids : list Z) (l : L) evs (tail : string),
    InitInputTokens (llm e) (start_token_id e :: ids) (llm_state w)
    = (OkStatus, l) /\
    trace w' = trace w ++ CallInitInputTokens (start_token_id e :: ids) :: evs /\
    decoded e (Z.to_nat (requests evs)) l = final_output s' +:+ tail /\
    (stop_tokens e = [] -> tail = EmptyString).
Proof.
  intros [Hlow _] Hrun. unfold PredictAsync in Hrun.
  apply start_llm_function_Returns in Hrun as (ids & l & _ & Hi & Hrun).
  exists ids, l.
  destruct (Z_lt_le_dec (response_count s)
              (output_ceiling e (start_token_id e :: ids))) as [Hlt|Hge].
  - unfold next_token_function in Hrun.
    pose proof Hrun as Hend.
    apply generation_ends_stopped in Hend as [_ Hend];
      cbn [max_num_output_tokens response_count set_max_num_output_tokens
           reset_request]; [| assumption | apply output_ceiling_int].
    apply generation_text in Hrun as (evs & tail & Htr & _ & Htext & Htail).
    cbn [max_num_output_tokens response_count early_stop final_output
         last_10_char llm_state trace set_max_num_output_tokens
         reset_request log_event] in *.
    specialize (Htext eq_refl). rewrite !append_nil in Htext.
    exists evs, tail. split; [assumption|].
    split; [rewrite Htr, <- app_assoc; reflexivity|].
    split; [|assumption].
    unfold pending in Htext. rewrite (Hend Hlt), append_nil in Htext.
    exact Htext.
  - rewrite next_token_function_ceiling in Hrun by exact Hge.
    injection Hrun as <- <-.
    exists [], EmptyString. split; [assumption|].
    split; [reflexivity|]. split; reflexivity.
Qed.

End DecodedExtras.

(** ** The further properties on concrete runs *)

Section MoreRuns.

Import Script Cases.

Lemma CloseResponseContext_again_is_noop_witness :
  CloseResponseContext hi_closed.1 hi_closed.2
  = Some (hi_closed.1, hi_closed.2).
Proof.
  apply (CloseResponseContext_again_is_noop hi_context hi_heap).
  vm_compute. reflexivity.
Defined.

Lemma CloseResponseContext_stale_copy_undefined_witness :
  CloseResponseContext hi_context hi_closed.2 = None.
Proof.
  apply (CloseResponseContext_stale_copy_undefined hi_context hi_heap
           1%positive [2%positive] hi_closed.1).
  - unfold owns. repeat split.
    + vm_compute. discriminate.
    + apply NoDup_singleton.
    + intros p Hp. apply list_elem_of_singleton in Hp as ->.
      exists "Hi". reflexivity.
  - vm_compute. reflexivity.
Defined.

Lemma generation_within_budget_witness :
  exists evs,
    trace hi_async.2 = trace (world [0; 1; 2; 3]) ++ evs /\
    requests evs
    <= Z.max 0 (max_num_tokens hi_engine
                - Z.of_nat (length (start_token_id hi_engine
                                    :: char_ids "abc"))).
Proof.
  apply (generation_within_budget hi_engine (Deliver 0) "abc"
           fresh_session (world [0; 1; 2; 3]) hi_async.1).
  - reflexivity.
  - split; vm_compute; discriminate.
  - vm_compute. discriminate.
  - vm_compute. reflexivity.
Defined.

Lemma PredictAsync_exchanges_witness :
  exists (ids : list Z) (ds : list (LlmResponseContext * string)),
    Encode (tokenizer greeting_engine) "abc" = (OkStatus, ids) /\
    trace greeting_async.2 = trace (world [0; 1; 2]) ++
      CallInitInputTokens (start_token_id greeting_engine :: ids)
      :: exchanges (Deliver 0) ds /\
    Forall (fun d => Response.response_count d.1 = 1 /\
                     response_array d.1 <> None) ds /\
    requests (exchanges (Deliver 0) ds)
    = Z.of_nat (deliveries (exchanges (Deliver 0) ds)).
Proof.
  apply (PredictAsync_exchanges greeting_engine (Deliver 0) "abc"
           fresh_session (world [0; 1; 2]) greeting_async.1).
  vm_compute. reflexivity.
Defined.

Lemma done_only_on_last_delivery_witness :
  exists evs,
    trace hi_async.2 = trace (world [0; 1; 2; 3]) ++ evs /\
    ((done_flags evs = [] /\ requests evs = 0) \/
     (exists n : nat,
         done_flags evs = repeat false n ++ [true] /\
         requests evs = Z.of_nat n + 1)).
Proof.
  apply (done_only_on_last_delivery hi_engine (Deliver 0) "abc"
           fresh_session (world [0; 1; 2; 3]) hi_async.1).
  - split; vm_compute; discriminate.
  - vm_compute. reflexivity.
Defined.

Lemma PredictSync_close_leaves_chunks_witness :
  exists evs ctx' (h' : gmap addr block),
    trace greeting_sync.2 = trace (world [0; 1; 2]) ++ evs /\
    CloseResponseContext greeting_sync.1.1 (heap greeting_sync.2)
    = Some (ctx', h') /\
    Response.response_count ctx' = 0 /\
    response_array ctx' = None /\
    blocks h' = blocks (heap (world [0; 1; 2])) + 2 * requests evs /\
    heap (world [0; 1; 2]) ⊆ h'.
Proof.
  apply (PredictSync_close_leaves_chunks greeting_engine "abc"
           fresh_session (world [0; 1; 2]) greeting_sync.1.1
           greeting_sync.1.2).
  vm_compute. reflexivity.
Defined.

(** A prompt with a NUL character: [SizeInTokens] returns -1, predict
    aborts. *)
Lemma predict_aborts_on_failure_witness :
  SizeInTokens greeting_engine (String NUL EmptyString)
  = (-1, Some (c_str "invalid input")) /\
  PredictSync greeting_engine (String NUL EmptyString) fresh_session
    (world [0])
  = Fatal ("Failed to encode input: " +:+ "invalid input").
Proof.
  apply (proj1 (predict_aborts_on_failure greeting_engine
                  (String NUL EmptyString) fresh_session (world [0]))
           "invalid input" []).
  reflexivity.
Defined.

(** The counter of [spent_session] stands at 6, the budget is 7. *)
Lemma spent_session_generates_nothing_witness :
  exists ctx s' w',
    PredictSync greeting_engine "a" spent_session (world [0; 1; 2])
    = Returns (ctx, s', w') /\
    trace w' = trace (world [0; 1; 2]) ++
      [CallInitInputTokens (start_token_id greeting_engine :: char_ids "a")] /\
    final_output s' = EmptyString /\
    read_response ctx (heap w') = Some [EmptyString] /\
    done ctx = true.
Proof.
  apply (spent_session_generates_nothing greeting_engine "a" spent_session
           (world [0; 1; 2]) (char_ids "a") [0; 1; 2]).
  - reflexivity.
  - reflexivity.
  - split; vm_compute; discriminate.
  - vm_compute. discriminate.
  - reflexivity.
Defined.

Lemma PredictSync_returns_witness :
  exists ctx s' w' evs,
    PredictSync steady_engine "abc" fresh_session steady_world
    = Returns (ctx, s', w') /\
    trace w' = trace steady_world ++
      CallInitInputTokens (start_token_id steady_engine :: char_ids "abc")
      :: evs /\
    requests evs
    <= Z.max 0 (output_ceiling steady_engine
                  (start_token_id steady_engine :: char_ids "abc")
                - response_count fresh_session) /\
    response_count s' = response_count fresh_session + requests evs + 1 /\
    response_count s' <= INT_MAX.
Proof.
  apply (PredictSync_returns steady_engine "abc" fresh_session steady_world
           (char_ids "abc")).
  - reflexivity.
  - intros prompt_ids st. now exists st.
  - intros st. now exists 0, [], st.
  - split; vm_compute; [discriminate | reflexivity].
  - vm_compute. reflexivity.
Defined.

Lemma stop_token_loop_decides_witness :
  early_stop (stop_token_loop ["Y"; "X"]
                (set_last_10_char "abXcdY" fresh_session)) = true
  <-> exists t,
      In t ["Y"; "X"] /\
      contains (last_10_char (set_last_10_char "abXcdY" fresh_session)) t.
Proof.
  apply (stop_token_loop_decides ["Y"; "X"]
           (set_last_10_char "abXcdY" fresh_session)).
  - vm_compute. discriminate.
  - reflexivity.
Defined.

Lemma first_stop_sequence_never_in_output_witness :
  ~ contains (final_output hi_async.1) "</s>".
Proof.
  apply (first_stop_sequence_never_in_output hi_engine (Deliver 0) "abc"
           "</s>" [] fresh_session (world [0; 1; 2; 3])
           hi_async.1 hi_async.2).
  - reflexivity.
  - split; vm_compute; discriminate.
  - intros id.
    change (size (nth (Z.to_nat id) ["Hi"; "</"; "s>"; "extra"] EmptyString)
            <= INT_MAX - kCheckLastKChars).
    destruct (Z.to_nat id) as [|[|[|[|[|n]]]]]; vm_compute; discriminate.
  - vm_compute. reflexivity.
Defined.

Lemma empty_stop_sequence_halts_witness :
  exists evs,
    trace empty_stop_async.2 = trace (world [0; 1]) ++ evs /\
    requests evs <= 1 /\
    (forall rest, stop_tokens empty_stop_engine = EmptyString :: rest ->
                  final_output empty_stop_async.1 = EmptyString).
Proof.
  apply (empty_stop_sequence_halts empty_stop_engine (Deliver 0) "abc"
           fresh_session (world [0; 1])).
  - right. left. reflexivity.
  - vm_compute. reflexivity.
Defined.

Lemma trailing_buffer_bounded_witness :
  (early_stop greeting_step.1.2 = false ->
   size (last_10_char greeting_step.1.2) <= kCheckLastKChars) /\
  (early_stop greeting_step.1.2 = true ->
   final_output greeting_step.1.2
   = final_output greeting_session +:+ last_10_char greeting_step.1.2).
Proof.
  apply (trailing_buffer_bounded greeting_engine greeting_session
           (world [1; 2]) greeting_step.1.2 greeting_step.2).
  vm_compute. reflexivity.
Defined.

Lemma output_is_decoded_text_witness :
  exists (ids : list Z) (l : list Z) evs (tail : string),
    InitInputTokens (llm greeting_engine)
      (start_token_id greeting_engine :: ids) (llm_state (world [0; 1; 2]))
    = (OkStatus, l) /\
    trace greeting_async.2 = trace (world [0; 1; 2]) ++
      CallInitInputTokens (start_token_id greeting_engine :: ids) :: evs /\
    decoded greeting_engine (Z.to_nat (requests evs)) l
    = final_output greeting_async.1 +:+ tail /\
    (stop_tokens greeting_engine = [] -> tail = EmptyString).
Proof.
  apply (output_is_decoded_text greeting_engine (Deliver 0) "abc"
           fresh_session (world [0; 1; 2])).
  - split; vm_compute; discriminate.
  - vm_compute. reflexivity.
Defined.

End MoreRuns.
